(** * UrbanRide client: trip mathematics, location provider and socket provider

    A shallow embedding of the trip-coordination core of the client:

    - [TripMath]: [calculateDistance] and [calculateETA] of
      [src/contexts/LocationContext.tsx] and the quote computed by
      [calculateTripDetails] of [src/pages/TripBooking.tsx];
    - [LocationProvider]: the tracking state of [LocationContext.tsx]
      together with the Capacitor Geolocation plugin it drives;
    - [SocketProvider]: the socket context (rooms, emitters, subscriptions)
      together with the socket.io objects it creates;
    - [AuthProvider]: the session state of [src/contexts/AuthContext.tsx]
      together with the browser storage it writes.

    A JavaScript [number] is read as a real number: [Math.sin], [Math.cos],
    [Math.sqrt], [Math.atan2], [Math.ceil] and [Math.round] are the real
    functions they approximate, so every statement about [TripMath] is a
    statement about the real-number semantics of the code (no rounding
    error, no NaN, no infinities).  [TripMathDouble] reads
    [calculateDistance] on IEEE doubles instead, where it can return
    NaN. *)

From Stdlib Require Import Reals Lra Lia ZArith.
From stdpp Require Import base option list strings gmap.
From Stdlib Require Floats.

(** ** JavaScript completions *)

(** A call either returns a value or throws.  [TypeError] is what a property
    read on [undefined] raises; [InvalidArgument] is the error kind the
    design documents name for malformed trip-math input. *)
Inductive ErrorKind := TypeError | InvalidArgument.

Inductive Completion (A : Type) :=
| Normal (a : A)
| Throw (e : ErrorKind).
Arguments Normal {A} a.
Arguments Throw {A} e.

Definition cbind {A B} (c : Completion A) (k : A -> Completion B) : Completion B :=
  match c with
  | Normal a => k a
  | Throw e => Throw e
  end.

(** ** Trip mathematics *)

Module TripMath.
Local Open Scope R_scope.

(** [Math.atan2(y, x)] on reals: the angle of the point [(x, y)], in
    [(-PI, PI]], and [0] at the origin. *)
Definition atan2 (y x : R) : R :=
  if Rlt_dec 0 x then atan (y / x)
  else if Rlt_dec x 0 then
    (if Rle_dec 0 y then atan (y / x) + PI else atan (y / x) - PI)
  else if Rlt_dec 0 y then PI / 2
  else if Rlt_dec y 0 then - (PI / 2)
  else 0.

(** [Math.ceil] and [Math.round]; [Math.round] rounds halves up. *)
Definition Math_ceil (x : R) : Z := Zceil x.
Definition Math_round (x : R) : Z := Zfloor (x + / 2).

(** The intermediate [a] of [calculateDistance]. *)
Definition haversine_a (lat1 lon1 lat2 lon2 : R) : R :=
  let dLat := (lat2 - lat1) * PI / 180 in
  let dLon := (lon2 - lon1) * PI / 180 in
  sin (dLat / 2) * sin (dLat / 2) +
  cos (lat1 * PI / 180) * cos (lat2 * PI / 180) *
  sin (dLon / 2) * sin (dLon / 2).

Definition calculateDistance (lat1 lon1 lat2 lon2 : R) : R :=
  let R_ := 6371 in
  let a := haversine_a lat1 lon1 lat2 lon2 in
  let c := 2 * atan2 (sqrt a) (sqrt (1 - a)) in
  R_ * c.

(** [calculateETA(distance, averageSpeed = 30)]: [None] is the omitted
    second argument. *)
Definition calculateETA (distance : R) (averageSpeed : option R) : Z :=
  let averageSpeed :=
    match averageSpeed with Some speed => speed | None => 30 end in
  Math_ceil ((distance / averageSpeed) * 60).

(** The body of [calculateETA] is one [return] of an arithmetic expression:
    a call always completes normally. *)
Definition call_calculateETA (distance : R) (averageSpeed : option R)
  : Completion Z :=
  Normal (calculateETA distance averageSpeed).

Record Vehicle := {
  type : string;
  name : string;
  description : string;
  baseFare : R;
  perKmRate : R;
  perMinuteRate : R;
  icon : string;
  eta : string
}.

Definition economy : Vehicle :=
  {| type := "economy"; name := "Economy";
     description := "Affordable, everyday rides";
     baseFare := 25; perKmRate := 12; perMinuteRate := 25 / 10;
     icon := "car"; eta := "3-5 min" |}.

Definition comfort : Vehicle :=
  {| type := "comfort"; name := "Comfort";
     description := "Newer cars with extra legroom";
     baseFare := 35; perKmRate := 15; perMinuteRate := 3;
     icon := "car-front"; eta := "2-4 min" |}.

Definition premium : Vehicle :=
  {| type := "premium"; name := "Premium";
     description := "Luxury cars for special occasions";
     baseFare := 50; perKmRate := 20; perMinuteRate := 4;
     icon := "car-taxi"; eta := "1-3 min" |}.

Definition vehicles : list Vehicle := [economy; comfort; premium].

(** The fare expression of [calculateTripDetails], as a function of the
    vehicle and of the two quantities it combines. *)
Definition fare (vehicle : Vehicle) (distanceKm estimatedMinutes : R) : Z :=
  Math_round (baseFare vehicle
              + distanceKm * perKmRate vehicle
              + estimatedMinutes * perMinuteRate vehicle).

Definition call_fare (vehicle : Vehicle) (distanceKm estimatedMinutes : R)
  : Completion Z :=
  Normal (fare vehicle distanceKm estimatedMinutes).

Record Coordinates := { latitude : R; longitude : R }.

Definition origin : Coordinates := {| latitude := 0; longitude := 0 |}.

(** The three pieces of screen state [calculateTripDetails] sets. *)
Record Quote := {
  distance : R;
  estimatedTime : Z;
  estimatedFare : Z
}.

Definition mockDropoffLocation (currentLocation : option Coordinates)
  : option Coordinates :=
  match currentLocation with
  | Some l => Some {| latitude := latitude l + 5 / 100;
                      longitude := longitude l + 5 / 100 |}
  | None => None
  end.

(** [vehicles.find(v => v.type === selectedVehicle)!]: reading a field of
    the result throws when no vehicle matches. *)
Definition find_vehicle (selectedVehicle : string) : Completion Vehicle :=
  match List.find (fun v => bool_decide (type v = selectedVehicle)) vehicles with
  | Some v => Normal v
  | None => Throw TypeError
  end.

(** [calculateTripDetails]: the new quote, or the old one when there is no
    current location. *)
Definition calculateTripDetails (currentLocation : option Coordinates)
    (selectedVehicle : string) (old : Quote) : Completion Quote :=
  match currentLocation, mockDropoffLocation currentLocation with
  | Some cur, Some drop =>
      let distanceKm :=
        calculateDistance (latitude cur) (longitude cur)
                          (latitude drop) (longitude drop) in
      cbind (find_vehicle selectedVehicle) (fun vehicle =>
      let estimatedMinutes := calculateETA distanceKm None in
      let fare_ := fare vehicle distanceKm (IZR estimatedMinutes) in
      Normal {| distance := IZR (Math_round (distanceKm * 10)) / 10;
                estimatedTime := estimatedMinutes;
                estimatedFare := fare_ |})
  | _, _ => Normal old
  end.

End TripMath.

(** ** The distance on doubles *)

Module TripMathDouble.
Import PrimFloat.
Local Open Scope float_scope.

(** [+], [-], [*], [/] and [Math.sqrt] on a [number] are the IEEE 754
    binary64 operations.  What [Math.sin], [Math.cos] and [Math.atan2]
    return is left to the engine. *)
Record Engine := {
  Math_sin : float -> float;
  Math_cos : float -> float;
  Math_atan2 : float -> float -> float
}.

(** [Math.PI], the double nearest to pi. *)
Definition Math_PI : float := 0x1.921fb54442d18p+1.

Definition haversine_a (E : Engine) (lat1 lon1 lat2 lon2 : float) : float :=
  let dLat := (lat2 - lat1) * Math_PI / 180 in
  let dLon := (lon2 - lon1) * Math_PI / 180 in
  Math_sin E (dLat / 2) * Math_sin E (dLat / 2) +
  Math_cos E (lat1 * Math_PI / 180) * Math_cos E (lat2 * Math_PI / 180) *
  Math_sin E (dLon / 2) * Math_sin E (dLon / 2).

Definition calculateDistance (E : Engine) (lat1 lon1 lat2 lon2 : float)
  : float :=
  let R_ := 6371 in
  let a := haversine_a E lat1 lon1 lat2 lon2 in
  let c := 2 * Math_atan2 E (sqrt a) (sqrt (1 - a)) in
  R_ * c.

(** An engine given only where the points (-12, -180) and (12, 0) need
    it, by the doubles the C library's [sin] and [cos] return there:
    [sin] of half the latitude difference and of half of pi, [cos] of the
    two latitudes in radians. *)
Definition sampled : Engine :=
  {| Math_sin x :=
       if x =? 0x1.acee9f37bebd5p-3 then 0x1.a9cd9ac4258f5p-3
       else if x =? 0x1.921fb54442d18p+0 then 1
       else nan;
     Math_cos x :=
       if abs x =? 0x1.acee9f37bebd5p-3 then 0x1.f4cfc327a0080p-1
       else nan;
     Math_atan2 y x := nan |}.

End TripMathDouble.

(** ** Location provider *)

Module LocationProvider.

(** A position fix as the provider stores it. *)
Record Location := {
  latitude : R;
  longitude : R;
  accuracy : option R;
  altitude : option R;
  heading : option R;
  speed : option R;
  timestamp : Z
}.

(** Capacitor hands out a non-empty string as [CallbackID]; it is modelled
    by its serial number, so [if (watchId)] is the test for [Some]. *)
Definition CallbackID := nat.

(** A caller-supplied [onLocationUpdate] function, by identity. *)
Definition Handler := nat.

(** A native watch started by [Geolocation.watchPosition]. *)
Record Watch := {
  watch_id : CallbackID;
  onLocationUpdate : option Handler
}.

(** The [useState] cells of [LocationProvider], the Geolocation plugin
    (running watches, [watchPosition] promises whose [then] has not run
    yet, next id) and the calls made to [onLocationUpdate] functions. *)
Record World := {
  currentLocation : option Location;
  locationPermission : option bool;
  isTracking : bool;
  watchId : option CallbackID;
  watches : list Watch;
  promises : list CallbackID;
  nextId : CallbackID;
  updates : list (Handler * Location)
}.

Definition initial : World :=
  {| currentLocation := None; locationPermission := None;
     isTracking := false; watchId := None;
     watches := []; promises := []; nextId := 0; updates := [] |}.

Definition setCurrentLocation (l : option Location) (w : World) : World :=
  {| currentLocation := l; locationPermission := locationPermission w;
     isTracking := isTracking w; watchId := watchId w;
     watches := watches w; promises := promises w; nextId := nextId w;
     updates := updates w |}.

Definition setLocationPermission (p : option bool) (w : World) : World :=
  {| currentLocation := currentLocation w; locationPermission := p;
     isTracking := isTracking w; watchId := watchId w;
     watches := watches w; promises := promises w; nextId := nextId w;
     updates := updates w |}.

Definition setIsTracking (b : bool) (w : World) : World :=
  {| currentLocation := currentLocation w;
     locationPermission := locationPermission w;
     isTracking := b; watchId := watchId w;
     watches := watches w; promises := promises w; nextId := nextId w;
     updates := updates w |}.

Definition setWatchId (i : option CallbackID) (w : World) : World :=
  {| currentLocation := currentLocation w;
     locationPermission := locationPermission w;
     isTracking := isTracking w; watchId := i;
     watches := watches w; promises := promises w; nextId := nextId w;
     updates := updates w |}.

(** [Geolocation.watchPosition(options, callback)]: the plugin starts a
    native watch and returns a promise of its id. *)
Definition Geolocation_watchPosition (cb : option Handler) (w : World) : World :=
  {| currentLocation := currentLocation w;
     locationPermission := locationPermission w;
     isTracking := isTracking w; watchId := watchId w;
     watches := watches w ++ [{| watch_id := nextId w; onLocationUpdate := cb |}];
     promises := promises w ++ [nextId w];
     nextId := S (nextId w);
     updates := updates w |}.

(** [Geolocation.clearWatch({ id })]. *)
Definition Geolocation_clearWatch (i : CallbackID) (w : World) : World :=
  {| currentLocation := currentLocation w;
     locationPermission := locationPermission w;
     isTracking := isTracking w; watchId := watchId w;
     watches := filter (fun x => watch_id x <> i) (watches w);
     promises := promises w; nextId := nextId w;
     updates := updates w |}.

(** [!locationPermission] on a [boolean | null]. *)
Definition not_granted (p : option bool) : bool :=
  match p with
  | Some true => false
  | _ => true
  end.

(** [startLocationTracking]: the synchronous part, up to its [return].
    The [interval] argument is not used by the body. *)
Definition startLocationTracking (cb : option Handler) (w : World)
  : bool * World :=
  if not_granted (locationPermission w) then (false, w)
  else if isTracking w then (true, w)
  else (true, Geolocation_watchPosition cb w).

(** The [then] of the oldest unresolved [watchPosition] promise:
    [setWatchId(id); setIsTracking(true)]. *)
Definition watchResolved (w : World) : World :=
  match promises w with
  | i :: rest =>
      let w :=
        {| currentLocation := currentLocation w;
           locationPermission := locationPermission w;
           isTracking := isTracking w; watchId := watchId w;
           watches := watches w; promises := rest; nextId := nextId w;
           updates := updates w |} in
      setIsTracking true (setWatchId (Some i) w)
  | [] => w
  end.

(** The watch callback on a position of watch [i] (the error branch only
    logs): [setCurrentLocation(location)], then [onLocationUpdate]. *)
Definition positionReceived (i : CallbackID) (l : Location) (w : World) : World :=
  match List.find (fun x => bool_decide (watch_id x = i)) (watches w) with
  | Some x =>
      let w := setCurrentLocation (Some l) w in
      match onLocationUpdate x with
      | Some h =>
          {| currentLocation := currentLocation w;
             locationPermission := locationPermission w;
             isTracking := isTracking w; watchId := watchId w;
             watches := watches w; promises := promises w;
             nextId := nextId w;
             updates := updates w ++ [(h, l)] |}
      | None => w
      end
  | None => w
  end.

Definition stopLocationTracking (w : World) : bool * World :=
  match watchId w with
  | Some i =>
      (true, setIsTracking false (setWatchId None (Geolocation_clearWatch i w)))
  | None => (false, w)
  end.

(** [checkLocationPermission] and [requestLocationPermission] once the
    plugin has answered; [None] is the plugin call failing.  The one-shot
    fix they start afterwards arrives as [CurrentPosition]. *)
Definition checkLocationPermission (answer : option bool) (w : World) : World :=
  match answer with
  | Some granted => setLocationPermission (Some granted) w
  | None => setLocationPermission (Some false) w
  end.

Definition requestLocationPermission (answer : option bool) (w : World)
  : bool * World :=
  match answer with
  | Some granted => (granted, setLocationPermission (Some granted) w)
  | None => (false, w)
  end.

(** What can happen to a provider, one event at a time. *)
Inductive Event :=
| CheckPermission (answer : option bool)
| RequestPermission (answer : option bool)
| CurrentPosition (l : Location)
| StartTracking (cb : option Handler)
| WatchResolved
| Position (i : CallbackID) (l : Location)
| StopTracking.

Definition step (e : Event) (w : World) : World :=
  match e with
  | CheckPermission a => checkLocationPermission a w
  | RequestPermission a => (requestLocationPermission a w).2
  | CurrentPosition l => setCurrentLocation (Some l) w
  | StartTracking cb => (startLocationTracking cb w).2
  | WatchResolved => watchResolved w
  | Position i l => positionReceived i l w
  | StopTracking => (stopLocationTracking w).2
  end.

Definition run (es : list Event) (w : World) : World :=
  foldl (fun w e => step e w) w es.

(** The ids of the native watches that are running. *)
Definition running (w : World) : list CallbackID := watch_id <$> watches w.

(** What every state of a provider satisfies (see [consistent_run]):
    [isTracking] is set exactly when a watch id is held; running watches
    have distinct ids, all handed out already; the ids still to be
    delivered are distinct and belong to running watches; the id held
    belongs to a running watch and is not one still to be delivered. *)
Definition consistent (w : World) : Prop :=
  (isTracking w = true <-> is_Some (watchId w))
  /\ NoDup (running w)
  /\ (forall i, i ∈ running w -> i < nextId w)
  /\ NoDup (promises w)
  /\ (forall i, i ∈ promises w -> i ∈ running w)
  /\ (forall i, watchId w = Some i -> i ∈ running w /\ i ∉ promises w).

End LocationProvider.

(** ** Socket provider *)

Module SocketProvider.

Inductive UserType := passenger | driver.

Definition UserType_string (t : UserType) : string :=
  match t with
  | passenger => "passenger"
  | driver => "driver"
  end.

Record User := {
  id : string;
  email : string;
  firstName : string;
  lastName : string;
  phoneNumber : string;
  userType : UserType
}.

(** A function registered on a socket: one of the five closures
    [initializeSocket] installs (the [connect] closure captures [user]), or
    a subscriber's callback, by identity. *)
Inductive Listener :=
| ConnectHandler (user : option User)
| DisconnectHandler
| ConnectErrorHandler
| ReconnectHandler
| ReconnectFailedHandler
| Callback (cb : nat).

Global Instance UserType_eq_dec : EqDecision UserType.
Proof. solve_decision. Defined.

Global Instance User_eq_dec : EqDecision User.
Proof. solve_decision. Defined.

Global Instance Listener_eq_dec : EqDecision Listener.
Proof. solve_decision. Defined.

(** An outgoing packet: event name and argument (a room name, or the
    serialised payload). *)
Definition Packet : Type := string * string.

(** A socket.io socket object: its [connected] flag, the listener arrays of
    its emitter (per event, in registration order) and the packets buffered
    while it is not connected. *)
Record Socket := {
  connected : bool;
  callbacks : gmap string (list Listener);
  sendBuffer : list Packet
}.

(** The [useState] cells of [SocketProvider] ([socket] is a reference into
    [heap]), every socket object created so far, the packets that reached
    the server (with the socket that sent them), and the calls made to
    subscribers' callbacks (with the data passed), oldest first. *)
Record World := {
  socket : option nat;
  isConnected : bool;
  heap : gmap nat Socket;
  wire : list (nat * Packet);
  invoked : list (nat * string)
}.

Definition initial : World :=
  {| socket := None; isConnected := false; heap := ∅;
     wire := []; invoked := [] |}.

Definition setSocket (r : option nat) (w : World) : World :=
  {| socket := r; isConnected := isConnected w; heap := heap w;
     wire := wire w; invoked := invoked w |}.

Definition setIsConnected (b : bool) (w : World) : World :=
  {| socket := socket w; isConnected := b; heap := heap w;
     wire := wire w; invoked := invoked w |}.

Definition set_heap (h : gmap nat Socket) (w : World) : World :=
  {| socket := socket w; isConnected := isConnected w; heap := h;
     wire := wire w; invoked := invoked w |}.

Definition transmit (ps : list (nat * Packet)) (w : World) : World :=
  {| socket := socket w; isConnected := isConnected w; heap := heap w;
     wire := wire w ++ ps; invoked := invoked w |}.

Definition call (cb : nat) (data : string) (w : World) : World :=
  {| socket := socket w; isConnected := isConnected w; heap := heap w;
     wire := wire w; invoked := invoked w ++ [(cb, data)] |}.

(** *** The socket.io object *)

Definition listeners (s : nat) (ev : string) (w : World) : list Listener :=
  match heap w !! s with
  | Some o => default [] (callbacks o !! ev)
  | None => []
  end.

Definition socket_connected (s : nat) (w : World) : bool :=
  match heap w !! s with
  | Some o => connected o
  | None => false
  end.

(** [socket.on(ev, fn)] appends to the event's listener array. *)
Definition socket_on (s : nat) (ev : string) (l : Listener) (w : World) : World :=
  match heap w !! s with
  | Some o =>
      set_heap (<[s := {| connected := connected o;
                          callbacks := <[ev := default [] (callbacks o !! ev) ++ [l]]>
                                         (callbacks o);
                          sendBuffer := sendBuffer o |}]> (heap w)) w
  | None => w
  end.

(** Removing the first occurrence, as [off] does. *)
Fixpoint remove_first (l : Listener) (ls : list Listener) : list Listener :=
  match ls with
  | [] => []
  | x :: rest => if decide (x = l) then rest else x :: remove_first l rest
  end.

(** [socket.off(ev, fn)]. *)
Definition socket_off (s : nat) (ev : string) (l : Listener) (w : World) : World :=
  match heap w !! s with
  | Some o =>
      match callbacks o !! ev with
      | Some ls =>
          set_heap (<[s := {| connected := connected o;
                              callbacks := <[ev := remove_first l ls]> (callbacks o);
                              sendBuffer := sendBuffer o |}]> (heap w)) w
      | None => w
      end
  | None => w
  end.

(** [socket.emit(ev, arg)]: sent when the socket is connected, buffered
    until the next connection otherwise. *)
Definition socket_emit (s : nat) (ev arg : string) (w : World) : World :=
  match heap w !! s with
  | Some o =>
      if connected o then transmit [(s, (ev, arg))] w
      else set_heap (<[s := {| connected := connected o;
                               callbacks := callbacks o;
                               sendBuffer := sendBuffer o ++ [(ev, arg)] |}]>
                       (heap w)) w
  | None => w
  end.

Definition set_connected (s : nat) (b : bool) (w : World) : World :=
  match heap w !! s with
  | Some o =>
      set_heap (<[s := {| connected := b; callbacks := callbacks o;
                          sendBuffer := sendBuffer o |}]> (heap w)) w
  | None => w
  end.

(** Sending what was buffered, on connection. *)
Definition flush (s : nat) (w : World) : World :=
  match heap w !! s with
  | Some o =>
      transmit (map (fun p => (s, p)) (sendBuffer o))
        (set_heap (<[s := {| connected := connected o;
                             callbacks := callbacks o;
                             sendBuffer := [] |}]> (heap w)) w)
  | None => w
  end.

(** *** The listeners' bodies *)

Definition run_listener (s : nat) (data : string) (l : Listener) (w : World)
  : World :=
  match l with
  | ConnectHandler user =>
      let w := setIsConnected true w in
      match user with
      | Some u =>
          let w := socket_emit s "join-room" ("user-" +:+ id u) w in
          socket_emit s "join-room" (UserType_string (userType u) +:+ "s") w
      | None => w
      end
  | DisconnectHandler => setIsConnected false w
  | ConnectErrorHandler => setIsConnected false w
  | ReconnectHandler => setIsConnected true w
  | ReconnectFailedHandler => setIsConnected false w
  | Callback cb => call cb data w
  end.

(** The emitter calls a copy of the event's listener array, in order. *)
Definition dispatch (s : nat) (ev data : string) (w : World) : World :=
  foldl (fun w l => run_listener s data l w) w (listeners s ev w).

(** *** What the transport and the server do to a socket *)

Definition transport_connect (s : nat) (w : World) : World :=
  dispatch s "connect" "" (flush s (set_connected s true w)).

Definition transport_disconnect (s : nat) (w : World) : World :=
  dispatch s "disconnect" "" (set_connected s false w).

(** An event of kind [ev] sent by the server reaches a connected socket. *)
Definition inbound (s : nat) (ev data : string) (w : World) : World :=
  if socket_connected s w then dispatch s ev data w else w.

(** *** The provider's functions *)

(** [initializeSocket]: a new socket object with the five listeners, then
    [setSocket(newSocket)]. *)
Definition initializeSocket (user : option User) (w : World) : World :=
  let s := fresh (dom (heap w)) in
  let newSocket :=
    {| connected := false;
       callbacks :=
         <["reconnect_failed" := [ReconnectFailedHandler]]>
         (<["reconnect" := [ReconnectHandler]]>
         (<["connect_error" := [ConnectErrorHandler]]>
         (<["disconnect" := [DisconnectHandler]]>
         (<["connect" := [ConnectHandler user]]> ∅))));
       sendBuffer := [] |} in
  setSocket (Some s) (set_heap (<[s := newSocket]> (heap w)) w).

(** [socket.disconnect()] closes the socket; its [disconnect] listeners run
    if it was connected. *)
Definition socket_disconnect (s : nat) (w : World) : World :=
  if socket_connected s w then transport_disconnect s w else w.

Definition disconnectSocket (w : World) : World :=
  match socket w with
  | Some s => setIsConnected false (setSocket None (socket_disconnect s w))
  | None => w
  end.

(** The body of the effect on [[token, user]]: [token && user] holds for a
    non-empty token and a user object.  ([io] throwing inside
    [initializeSocket] is not modelled.) *)
Definition authEffect (token : option string) (user : option User) (w : World)
  : World :=
  match token, user with
  | Some t, Some _ =>
      if bool_decide (t = "") then disconnectSocket w
      else initializeSocket user w
  | _, _ => disconnectSocket w
  end.

Definition joinTripRoom (tripId : string) (w : World) : World :=
  match socket w with
  | Some s =>
      if isConnected w then socket_emit s "join-room" ("trip-" +:+ tripId) w
      else w
  | None => w
  end.

Definition leaveTripRoom (tripId : string) (w : World) : World :=
  match socket w with
  | Some s =>
      if isConnected w then socket_emit s "leave-room" ("trip-" +:+ tripId) w
      else w
  | None => w
  end.

(** What a subscription function returns: the closure
    [() => socket.off(kind, callback)], by what it captures. *)
Record Unsubscribe := {
  unsub_socket : nat;
  unsub_kind : string;
  unsub_callback : nat
}.

(** The common body of the seven subscription functions: with a socket,
    register and return the unsubscribe closure; without, nothing. *)
Definition subscribe (kind : string) (callback : nat) (w : World)
  : option Unsubscribe * World :=
  match socket w with
  | Some s =>
      (Some {| unsub_socket := s; unsub_kind := kind;
               unsub_callback := callback |},
       socket_on s kind (Callback callback) w)
  | None => (None, w)
  end.

Definition onTripRequest := subscribe "trip-request".
Definition onTripStatusUpdate := subscribe "trip-status".
Definition onDriverLocationUpdate := subscribe "driver-location".
Definition onMessageReceived := subscribe "new-message".
Definition onTripCancelled := subscribe "trip-cancelled".
Definition onDriverArrived := subscribe "driver-arrived".
Definition onPaymentRequested := subscribe "payment-request".

Definition unsubscribe (u : Unsubscribe) (w : World) : World :=
  socket_off (unsub_socket u) (unsub_kind u) (Callback (unsub_callback u)) w.

(** The subscribers' callbacks among the listeners of an event, in
    registration order. *)
Definition subscribers (s : nat) (ev : string) (w : World) : list nat :=
  omap (fun l => match l with Callback cb => Some cb | _ => None end)
       (listeners s ev w).

(** The listener tables of all sockets, and the packets a socket holds
    back. *)
Definition tables (w : World) : gmap nat (gmap string (list Listener)) :=
  callbacks <$> heap w.

Definition buffered (s : nat) (w : World) : list Packet :=
  match heap w !! s with
  | Some o => sendBuffer o
  | None => []
  end.

(** Connection-state transitions: the five socket events the provider
    listens to, and the effect on the credentials. *)
Inductive Transition :=
| Connect (s : nat)
| Disconnect (s : nat)
| ConnectError (s : nat)
| Reconnect (s : nat)
| ReconnectFailed (s : nat)
| Auth (token : option string) (user : option User).

Definition transition (t : Transition) (w : World) : World :=
  match t with
  | Connect s => transport_connect s w
  | Disconnect s => transport_disconnect s w
  | ConnectError s => dispatch s "connect_error" "" w
  | Reconnect s => dispatch s "reconnect" "" w
  | ReconnectFailed s => dispatch s "reconnect_failed" "" w
  | Auth token user => authEffect token user w
  end.

Definition transitions (ts : list Transition) (w : World) : World :=
  foldl (fun w t => transition t w) w ts.

(** A driver, for the examples. *)
Definition dana : User :=
  {| id := "42"; email := "dana@example.org"; firstName := "Dana";
     lastName := "Reyes"; phoneNumber := "5550100"; userType := driver |}.

End SocketProvider.

(** ** The emitters of the socket provider, and its life as a whole *)

Module SocketEmitters.
Import SocketProvider.

(** The values the emitted objects hold. *)
Inductive Value :=
| VString (s : string)
| VNumber (x : R).

Record LatLng := { latitude : R; longitude : R }.

(** The object literals, as maps from key to value.  In
    [{ tripId, status, timestamp, ...additionalData }] the keys of
    [additionalData] come last and win. *)
Definition locationPayload (now tripId : string) (location : LatLng)
  : gmap string Value :=
  <["timestamp" := VString now]>
  (<["longitude" := VNumber (longitude location)]>
  (<["latitude" := VNumber (latitude location)]>
  (<["tripId" := VString tripId]> ∅))).

Definition tripStatusPayload (now tripId status : string)
    (additionalData : gmap string Value) : gmap string Value :=
  additionalData ∪
  (<["timestamp" := VString now]>
  (<["status" := VString status]>
  (<["tripId" := VString tripId]> ∅))).

Definition acceptPayload (tripId : string) (user : User) : gmap string Value :=
  <["driverId" := VString (id user)]> (<["tripId" := VString tripId]> ∅).

Definition rejectPayload (tripId : string) (user : User) (reason : string)
  : gmap string Value :=
  <["reason" := VString reason]>
  (<["driverId" := VString (id user)]>
  (<["tripId" := VString tripId]> ∅)).

Definition messagePayload (now tripId : string) (user : User) (message : string)
  : gmap string Value :=
  <["timestamp" := VString now]>
  (<["message" := VString message]>
  (<["userId" := VString (id user)]>
  (<["tripId" := VString tripId]> ∅))).

(** [if (socket && isConnected) socket.emit(ev, arg)]. *)
Definition guarded_emit (ev arg : string) (w : World) : World :=
  match socket w with
  | Some s => if isConnected w then socket_emit s ev arg w else w
  | None => w
  end.

Section Encoded.

(** How an object is written into a packet, and the reading of the clock
    ([new Date().toISOString()]) at the call. *)
Variable encode : gmap string Value -> string.

Definition updateDriverLocation (now : string) (tripId : string)
    (location : LatLng) (w : World) : World :=
  guarded_emit "location-update" (encode (locationPayload now tripId location)) w.

Definition updateTripStatus (now : string) (tripId status : string)
    (additionalData : option (gmap string Value)) (w : World) : World :=
  guarded_emit "trip-status-update"
    (encode (tripStatusPayload now tripId status (default ∅ additionalData))) w.

(** The last three also need the logged-in [user] of the auth context. *)
Definition acceptTripRequest (user : option User) (tripId : string) (w : World)
  : World :=
  match user with
  | Some u => guarded_emit "accept-trip" (encode (acceptPayload tripId u)) w
  | None => w
  end.

Definition rejectTripRequest (user : option User) (tripId : string)
    (reason : option string) (w : World) : World :=
  match user with
  | Some u =>
      guarded_emit "reject-trip"
        (encode (rejectPayload tripId u (default "" reason))) w
  | None => w
  end.

Definition sendMessage (user : option User) (now : string)
    (tripId message : string) (w : World) : World :=
  match user with
  | Some u =>
      guarded_emit "send-message" (encode (messagePayload now tripId u message)) w
  | None => w
  end.

End Encoded.

(** The seven kinds of event the subscription functions listen to. *)
Inductive Kind :=
| TripRequest | TripStatus | DriverLocation | NewMessage
| TripCancelled | DriverArrived | PaymentRequest.

Definition Kind_name (k : Kind) : string :=
  match k with
  | TripRequest => "trip-request"
  | TripStatus => "trip-status"
  | DriverLocation => "driver-location"
  | NewMessage => "new-message"
  | TripCancelled => "trip-cancelled"
  | DriverArrived => "driver-arrived"
  | PaymentRequest => "payment-request"
  end.

(** Everything that happens to a provider: a connection-state transition,
    an event from the server, a call of a trip-room function, of an emitter
    (by the event and argument it would send), of a subscription function,
    or of a closure a subscription function returned. *)
Inductive Action :=
| Happens (t : Transition)
| Inbound (s : nat) (k : Kind) (data : string)
| Send (ev arg : string)
| Subscribe (k : Kind) (cb : nat)
| Cancel (s : nat) (k : Kind) (cb : nat).

Definition act (a : Action) (w : World) : World :=
  match a with
  | Happens t => transition t w
  | Inbound s k data => inbound s (Kind_name k) data w
  | Send ev arg => guarded_emit ev arg w
  | Subscribe k cb => (subscribe (Kind_name k) cb w).2
  | Cancel s k cb =>
      unsubscribe {| unsub_socket := s; unsub_kind := Kind_name k;
                     unsub_callback := cb |} w
  end.

Definition acts (l : list Action) (w : World) : World :=
  foldl (fun w a => act a w) w l.

(** The [connected] flags of all sockets. *)
Definition flags (w : World) : gmap nat bool := connected <$> heap w.

(** The five listeners [initializeSocket] installs are in place on socket
    [s], alone on their events, the [connect] one holding a user. *)
Definition own_listeners (s : nat) (w : World) : Prop :=
  (exists u, listeners s "connect" w = [ConnectHandler (Some u)])
  /\ listeners s "disconnect" w = [DisconnectHandler]
  /\ listeners s "connect_error" w = [ConnectErrorHandler]
  /\ listeners s "reconnect" w = [ReconnectHandler]
  /\ listeners s "reconnect_failed" w = [ReconnectFailedHandler].

(** What holds of every world of a provider (see
    [provider_listeners_intact]). *)
Definition intact (w : World) : Prop :=
  (forall s, socket w = Some s -> is_Some (heap w !! s))
  /\ (forall s, is_Some (heap w !! s) -> own_listeners s w).

End SocketEmitters.

(** ** Auth provider *)

Module AuthProvider.
Import SocketProvider.

(** The [useState] cells of [AuthProvider] and the browser's
    [localStorage]. *)
Record State := {
  user : option User;
  token : option string;
  isLoading : bool;
  localStorage : gmap string string
}.

(** The provider as mounted, over what the storage holds. *)
Definition mounted (storage : gmap string string) : State :=
  {| user := None; token := None; isLoading := true;
     localStorage := storage |}.

Definition setUser (u : option User) (st : State) : State :=
  {| user := u; token := token st; isLoading := isLoading st;
     localStorage := localStorage st |}.

Definition setToken (t : option string) (st : State) : State :=
  {| user := user st; token := t; isLoading := isLoading st;
     localStorage := localStorage st |}.

Definition setIsLoading (b : bool) (st : State) : State :=
  {| user := user st; token := token st; isLoading := b;
     localStorage := localStorage st |}.

Definition setItem (k v : string) (st : State) : State :=
  {| user := user st; token := token st; isLoading := isLoading st;
     localStorage := <[k := v]> (localStorage st) |}.

Definition removeItem (k : string) (st : State) : State :=
  {| user := user st; token := token st; isLoading := isLoading st;
     localStorage := delete k (localStorage st) |}.

(** What [login], [register] and [updateProfile] return. *)
Record Result := {
  success : bool;
  error : option string
}.

(** What the server call came to: [fetch] or [response.json()] threw, the
    response was not ok (with the [error] field of its body, if any), or it
    was ok with [token] and [user] in its body. *)
Inductive Response :=
| Threw
| NotOk (error : option string)
| Ok (token : string) (user : User).

(** [data.error || fallback]. *)
Definition or_else (e : option string) (fallback : string) : string :=
  match e with
  | Some m => if bool_decide (m = "") then fallback else m
  | None => fallback
  end.

Section Json.

(** [JSON.stringify] on a user and [JSON.parse] of a stored string
    ([None] when it throws). *)
Variable stringify : User -> string.
Variable parse : string -> option User.

(** [checkAuthStatus]: [setToken] has run when [JSON.parse] throws. *)
Definition checkAuthStatus (st : State) : State :=
  match localStorage st !! "authToken", localStorage st !! "user" with
  | Some storedToken, Some storedUser =>
      if bool_decide (storedToken = "") || bool_decide (storedUser = "")
      then setIsLoading false st
      else
        match parse storedUser with
        | Some u =>
            setIsLoading false (setUser (Some u) (setToken (Some storedToken) st))
        | None => setIsLoading false (setToken (Some storedToken) st)
        end
  | _, _ => setIsLoading false st
  end.

(** The common body of [login] and [register], which differ by the
    message. *)
Definition signIn (fallback : string) (r : Response) (st : State)
  : Result * State :=
  match r with
  | Threw => ({| success := false; error := Some fallback |}, st)
  | NotOk e =>
      ({| success := false; error := Some (or_else e fallback) |}, st)
  | Ok t u =>
      ({| success := true; error := None |},
       setUser (Some u)
         (setToken (Some t)
            (setItem "user" (stringify u) (setItem "authToken" t st))))
  end.

Definition login := signIn "Login failed".
Definition register := signIn "Registration failed".

Definition logout (st : State) : State :=
  setUser None (setToken None (removeItem "user" (removeItem "authToken" st))).

Definition updateProfile (r : Response) (st : State) : Result * State :=
  match r with
  | Threw => ({| success := false; error := Some "Profile update failed" |}, st)
  | NotOk e =>
      ({| success := false;
          error := Some (or_else e "Profile update failed") |}, st)
  | Ok _ u =>
      ({| success := true; error := None |},
       setUser (Some u) (setItem "user" (stringify u) st))
  end.

End Json.

(** A way of storing users for the examples: by their id. *)
Definition store_id (u : User) : string := id u.
Definition load_dana (s : string) : option User :=
  if bool_decide (s = "42") then Some dana else None.

End AuthProvider.

(** * Properties of the trip mathematics *)

Section TripMathFacts.
Import TripMath.
Local Open Scope R_scope.

(** Degrees to radians distributes over the difference of two angles. *)
Lemma radians_sub (x y : R) :
  (y - x) * PI / 180 = y * PI / 180 - x * PI / 180.
Proof. field. Qed.

Lemma sin_half_sq (x : R) : sin (x / 2) * sin (x / 2) = (1 - cos x) / 2.
Proof.
  replace x with (2 * (x / 2)) at 3 by field.
  rewrite cos_2a_sin. field.
Qed.

Lemma sin_half_sq_range (x : R) : 0 <= sin (x / 2) * sin (x / 2) <= 1.
Proof.
  rewrite sin_half_sq. pose proof (COS_bound x). lra.
Qed.

Lemma haversine_a_sym (lat1 lon1 lat2 lon2 : R) :
  haversine_a lat1 lon1 lat2 lon2 = haversine_a lat2 lon2 lat1 lon1.
Proof.
  unfold haversine_a; cbv zeta.
  replace ((lat1 - lat2) * PI / 180 / 2)
    with (- ((lat2 - lat1) * PI / 180 / 2)) by field.
  replace ((lon1 - lon2) * PI / 180 / 2)
    with (- ((lon2 - lon1) * PI / 180 / 2)) by field.
  rewrite !sin_neg. ring.
Qed.

Lemma haversine_a_same (lat lon : R) : haversine_a lat lon lat lon = 0.
Proof.
  unfold haversine_a; cbv zeta.
  replace ((lat - lat) * PI / 180 / 2) with 0 by field.
  replace ((lon - lon) * PI / 180 / 2) with 0 by field.
  rewrite sin_0. ring.
Qed.

(** The intermediate [a] is a convex combination of [sin^2] of the half
    latitude difference and [cos^2] of the mean latitude. *)
Lemma haversine_a_range (lat1 lon1 lat2 lon2 : R) :
  0 <= haversine_a lat1 lon1 lat2 lon2 <= 1.
Proof.
  unfold haversine_a; cbv zeta.
  set (p1 := lat1 * PI / 180). set (p2 := lat2 * PI / 180).
  set (dLon := (lon2 - lon1) * PI / 180).
  rewrite radians_sub. fold p1 p2.
  pose proof (sin_half_sq_range dLon) as Hs.
  set (s := sin (dLon / 2) * sin (dLon / 2)) in *.
  pose proof (sin_half_sq_range (p2 - p1)) as Hd.
  pose proof (sin_half_sq (p2 - p1)) as Ed.
  set (h := sin ((p2 - p1) / 2) * sin ((p2 - p1) / 2)) in *.
  assert (Em : h + cos p1 * cos p2 = (1 + cos (p1 + p2)) / 2).
  { rewrite Ed, cos_minus, cos_plus. field. }
  pose proof (COS_bound (p1 + p2)) as Hc.
  replace (h + cos p1 * cos p2 * sin (dLon / 2) * sin (dLon / 2))
    with ((1 - s) * h + s * (h + cos p1 * cos p2)) by (unfold s; ring).
  rewrite Em. split; nra.
Qed.

Lemma atan2_quadrant1 (y x : R) :
  0 <= y -> 0 <= x -> 0 <= atan2 y x <= PI / 2.
Proof.
  intros Hy Hx. unfold atan2. pose proof PI_RGT_0 as Hpi.
  destruct (Rlt_dec 0 x) as [Hpos|Hn].
  - pose proof (atan_bound (y / x)) as [_ Hub].
    assert (0 <= y / x) as Hq.
    { unfold Rdiv. apply Rmult_le_pos; [lra|].
      left. now apply Rinv_0_lt_compat. }
    destruct Hq as [Hq|Hq].
    + pose proof (atan_increasing _ _ Hq) as Hi. rewrite atan_0 in Hi. lra.
    + rewrite <- Hq, atan_0. lra.
  - destruct (Rlt_dec x 0); [lra|].
    destruct (Rlt_dec 0 y); [lra|].
    destruct (Rlt_dec y 0); lra.
Qed.

Lemma calculateDistance_range (lat1 lon1 lat2 lon2 : R) :
  0 <= calculateDistance lat1 lon1 lat2 lon2 <= 6371 * PI.
Proof.
  unfold calculateDistance; cbv zeta.
  pose proof (atan2_quadrant1 (sqrt (haversine_a lat1 lon1 lat2 lon2))
                (sqrt (1 - haversine_a lat1 lon1 lat2 lon2))
                (sqrt_pos _) (sqrt_pos _)).
  lra.
Qed.

(** C7: swapping the two points leaves [calculateDistance] unchanged, and
    the distance from a point to itself is 0. *)
Theorem calculateDistance_symmetric_zero (lat1 lon1 lat2 lon2 : R) :
  calculateDistance lat1 lon1 lat2 lon2 = calculateDistance lat2 lon2 lat1 lon1
  /\ calculateDistance lat1 lon1 lat1 lon1 = 0.
Proof.
  unfold calculateDistance; cbv zeta. split.
  - now rewrite (haversine_a_sym lat1 lon1 lat2 lon2).
  - rewrite haversine_a_same, Rminus_0_r, sqrt_0, sqrt_1.
    unfold atan2. destruct (Rlt_dec 0 1); [|lra].
    replace (0 / 1) with 0 by field. rewrite atan_0. ring.
Qed.

(** On real numbers the intermediate [a] lies in [0, 1], and
    [calculateDistance] is non-negative and at most [PI * 6371].  (On
    doubles this fails near antipodes, see
    [calculateDistance_double_nan].) *)
Theorem calculateDistance_nonneg (lat1 lon1 lat2 lon2 : R) :
  0 <= haversine_a lat1 lon1 lat2 lon2 <= 1
  /\ 0 <= calculateDistance lat1 lon1 lat2 lon2 <= PI * 6371.
Proof.
  split; [apply haversine_a_range|].
  pose proof (calculateDistance_range lat1 lon1 lat2 lon2). lra.
Qed.

(** ** The worked quote: pickup (0,0), drop-off (0.05,0.05), economy *)

Lemma PI_bounds : 31415 / 10000 < PI < 31416 / 10000.
Proof.
  pose proof (PI_2_3_7_ineq 2) as [Hl Hu].
  unfold PI_2_3_7_tg, tg_alt, Ratan_seq in Hl, Hu.
  simpl in Hl, Hu.
  split; lra.
Qed.

Lemma sin_cubic_lower (x : R) : 0 <= x <= PI -> x - x * x * x / 6 <= sin x.
Proof.
  intros [H0 H1]. pose proof (sin_bound x 0 H0 H1) as [Hl _].
  unfold sin_approx, sin_term in Hl. simpl in Hl. lra.
Qed.

Lemma cos_quadratic_lower (x : R) :
  - PI / 2 <= x <= PI / 2 -> 1 - x * x / 2 <= cos x.
Proof.
  intros [H0 H1]. pose proof (cos_bound x 0 H0 H1) as [Hl _].
  unfold cos_approx, cos_term in Hl. simpl in Hl. lra.
Qed.

Lemma tan_lower (u : R) : 0 < u < 1 -> u - u * u * u / 6 <= tan u.
Proof.
  intros [H0 H1]. pose proof PI2_1 as Hpi.
  assert (0 < cos u) as Hc by (apply cos_gt_0; lra).
  pose proof (COS_bound u) as [_ Hc1].
  pose proof (sin_cubic_lower u ltac:(lra)) as Hs.
  assert (0 < u - u * u * u / 6) as Hp by nra.
  unfold tan. apply Rle_trans with (sin u); [lra|].
  unfold Rdiv. rewrite <- (Rmult_1_r (sin u)) at 1.
  apply Rmult_le_compat_l; [lra|].
  rewrite <- Rinv_1 at 1. apply Rinv_le_contravar; lra.
Qed.

Lemma tan_upper (u : R) : 0 < u < 1 -> tan u <= u / (1 - u * u / 2).
Proof.
  intros [H0 H1]. pose proof PI2_1 as Hpi.
  assert (0 < cos u) as Hc by (apply cos_gt_0; lra).
  pose proof (cos_quadratic_lower u ltac:(lra)) as Hq.
  pose proof (sin_lt_x u H0) as Hs.
  assert (0 < 1 - u * u / 2) as Hp by nra.
  assert (0 < sin u) as Hsp by (apply sin_gt_0; lra).
  unfold tan, Rdiv.
  apply Rmult_le_compat; try lra.
  - left. now apply Rinv_0_lt_compat.
  - apply Rinv_le_contravar; lra.
Qed.

(** For [0 < a < 1] the second argument of [atan2] is positive, so the arc
    term is an [atan] of [t] with [t * t = a / (1 - a)]. *)
Lemma arc_term_atan (a : R) :
  0 < a < 1 ->
  exists t, atan2 (sqrt a) (sqrt (1 - a)) = atan t
            /\ 0 < t /\ t * t = a / (1 - a).
Proof.
  intros [H0 H1].
  assert (0 < sqrt a) as Hn by (apply sqrt_lt_R0; lra).
  assert (0 < sqrt (1 - a)) as Hd by (apply sqrt_lt_R0; lra).
  exists (sqrt a / sqrt (1 - a)). split; [|split].
  - unfold atan2. destruct (Rlt_dec 0 (sqrt (1 - a))); [reflexivity|lra].
  - unfold Rdiv. apply Rmult_lt_0_compat; [lra|now apply Rinv_0_lt_compat].
  - pose proof (sqrt_sqrt a ltac:(lra)) as Ea.
    pose proof (sqrt_sqrt (1 - a) ltac:(lra)) as Eb.
    set (x := sqrt a) in *. set (y := sqrt (1 - a)) in *.
    rewrite <- Eb, <- Ea. field. lra.
Qed.

Lemma atan_above (t l : R) :
  0 < l < 1 -> 0 < t -> (l / (1 - l * l / 2)) * (l / (1 - l * l / 2)) < t * t ->
  l < atan t.
Proof.
  intros Hl Ht Hsq. pose proof PI2_1 as Hpi.
  pose proof (tan_upper l Hl) as Hu.
  assert (0 < 1 - l * l / 2) as Hp by nra.
  assert (0 < l / (1 - l * l / 2)) as Hw.
  { unfold Rdiv. apply Rmult_lt_0_compat; [lra|now apply Rinv_0_lt_compat]. }
  assert (tan l < t) as Hlt by nra.
  apply atan_increasing in Hlt. rewrite atan_tan in Hlt; lra.
Qed.

Lemma atan_below (t u : R) :
  0 < u < 1 -> 0 < t ->
  t * t < (u - u * u * u / 6) * (u - u * u * u / 6) ->
  atan t < u.
Proof.
  intros Hu Ht Hsq. pose proof PI2_1 as Hpi.
  pose proof (tan_lower u Hu) as Hl.
  assert (0 < u - u * u * u / 6) as Hp by nra.
  assert (t < tan u) as Hlt by nra.
  apply atan_increasing in Hlt. rewrite atan_tan in Hlt; lra.
Qed.

Lemma haversine_a_worked :
  38074 / 100000000000 < haversine_a 0 0 (5 / 100) (5 / 100)
                       < 38078 / 100000000000.
Proof.
  unfold haversine_a; cbv zeta.
  replace ((5 / 100 - 0) * PI / 180 / 2) with (PI / 7200) by field.
  replace (0 * PI / 180) with 0 by field.
  replace (5 / 100 * PI / 180) with (PI / 3600) by field.
  rewrite cos_0. pose proof PI_bounds as [Pl Pu].
  pose proof (sin_cubic_lower (PI / 7200) ltac:(lra)) as Hs.
  pose proof (sin_lt_x (PI / 7200) ltac:(lra)) as Hs'.
  pose proof (cos_quadratic_lower (PI / 3600) ltac:(lra)) as Hc.
  pose proof (COS_bound (PI / 3600)) as [_ Hc'].
  set (s := sin (PI / 7200)) in *. set (c := cos (PI / 3600)) in *.
  assert (436319 / 1000000000 <= s) as Hsl by nra.
  assert (s <= 436334 / 1000000000) as Hsu by lra.
  assert (9999996 / 10000000 <= c) as Hcl by nra.
  split; nra.
Qed.

(** The distance of the worked example, to a metre. *)
Lemma calculateDistance_worked :
  7862 / 1000 < calculateDistance 0 0 (5 / 100) (5 / 100) < 7863 / 1000.
Proof.
  unfold calculateDistance; cbv zeta.
  pose proof haversine_a_worked as [Hl Hu].
  set (a := haversine_a 0 0 (5 / 100) (5 / 100)) in *.
  destruct (arc_term_atan a ltac:(lra)) as (t & -> & Ht & Hsq).
  assert (a <= t * t) as Hge.
  { rewrite Hsq. unfold Rdiv. rewrite <- (Rmult_1_r a) at 1.
    apply Rmult_le_compat_l; [lra|].
    rewrite <- Rinv_1 at 1. apply Rinv_le_contravar; lra. }
  assert (t * t <= 38079 / 100000000000) as Hle.
  { rewrite Hsq. apply Rmult_le_reg_r with (1 - a); [lra|].
    unfold Rdiv. rewrite Rmult_assoc, Rinv_l by lra. nra. }
  split.
  - assert (7862 / 1000 / 12742 < atan t); [|lra].
    apply atan_above; [lra|lra|].
    apply Rlt_le_trans with (38074 / 100000000000); [|lra].
    field_simplify; lra.
  - assert (atan t < 7863 / 1000 / 12742); [|lra].
    apply atan_below; [lra|lra|].
    apply Rle_lt_trans with (38079 / 100000000000); [lra|].
    field_simplify; lra.
Qed.

Lemma calculateETA_worked :
  calculateETA (calculateDistance 0 0 (5 / 100) (5 / 100)) (Some 30) = 16%Z.
Proof.
  pose proof calculateDistance_worked as [Hl Hu].
  unfold calculateETA, Math_ceil; cbv zeta beta iota.
  apply Zceil_eq. lra.
Qed.

Lemma fare_worked :
  fare economy (calculateDistance 0 0 (5 / 100) (5 / 100)) 16 = 159%Z.
Proof.
  pose proof calculateDistance_worked as [Hl Hu].
  unfold fare, Math_round, economy; cbn [baseFare perKmRate perMinuteRate].
  apply Zfloor_eq. lra.
Qed.

(** The fare of the worked example is not 157: the three terms are 25,
    about 94.35 and 40. *)
Lemma worked_fare_is_not_157 :
  let d := calculateDistance 0 0 (5 / 100) (5 / 100) in
  fare economy d (IZR (calculateETA d (Some 30))) <> 157%Z.
Proof.
  cbv zeta. rewrite calculateETA_worked, fare_worked. discriminate.
Qed.

(** C1 (amended): for pickup (0,0) and drop-off (0.05,0.05) with the
    economy rates and average speed 30 km/h, [calculateDistance] is 7.86 km
    to two decimals (between 7.862 and 7.863), [calculateETA] of it is 16
    minutes, and [calculateTripDetails] sets the time to 16, the fare to 159
    and the displayed distance to 7.9. *)
Theorem worked_quote (old : Quote) :
  let d := calculateDistance 0 0 (5 / 100) (5 / 100) in
  7862 / 1000 < d < 7863 / 1000
  /\ calculateETA d (Some 30) = 16%Z
  /\ fare economy d (IZR (calculateETA d (Some 30))) = 159%Z
  /\ calculateTripDetails (Some origin) "economy" old
     = Normal {| distance := 79 / 10;
                 estimatedTime := 16;
                 estimatedFare := 159 |}.
Proof.
  cbv zeta. pose proof calculateDistance_worked as Hd.
  pose proof calculateETA_worked as He. pose proof fare_worked as Hf.
  repeat split; try tauto.
  - now rewrite He.
  - unfold calculateTripDetails, mockDropoffLocation, origin;
      cbn [latitude longitude].
    rewrite Rplus_0_l.
    change (find_vehicle "economy") with (Normal economy); cbn [cbind].
    change (calculateETA (calculateDistance 0 0 (5 / 100) (5 / 100)) None)
      with (calculateETA (calculateDistance 0 0 (5 / 100) (5 / 100)) (Some 30)).
    rewrite He, Hf. do 2 f_equal.
    unfold Math_round. erewrite (Zfloor_eq 79); [reflexivity|lra].
Qed.

(** ** Negative distances *)

(** A negative distance is turned into a number by both computations:
    30 km backwards is an ETA of -60 minutes and an economy fare of
    25 - 360 - 150 = -485. *)
Lemma negative_distance_gives_number :
  call_calculateETA (-30) None = Normal (-60)%Z
  /\ call_calculateETA (-30) None <> Throw InvalidArgument
  /\ call_fare economy (-30) (-60) = Normal (-485)%Z
  /\ call_fare economy (-30) (-60) <> Throw InvalidArgument.
Proof.
  assert (calculateETA (-30) None = (-60)%Z) as He.
  { unfold calculateETA, Math_ceil. apply Zceil_eq. lra. }
  assert (fare economy (-30) (-60) = (-485)%Z) as Hf.
  { unfold fare, Math_round, economy; cbn [baseFare perKmRate perMinuteRate].
    apply Zfloor_eq. lra. }
  unfold call_calculateETA, call_fare. rewrite He, Hf.
  repeat split; discriminate.
Qed.

(** C2 (amended): neither computation validates its input.  For every
    negative [distanceKm], [calculateETA] completes normally with
    [ceil(distanceKm / 30 * 60)], which is zero or negative, and the fare
    expression completes normally with the rounded sum, which is at most
    what distance 0 gives when the per-km rate is not negative. *)
Theorem negative_distance_not_rejected (distanceKm : R) (v : Vehicle)
    (estimatedMinutes : R) :
  distanceKm < 0 ->
  call_calculateETA distanceKm None
    = Normal (Zceil (distanceKm / 30 * 60))
  /\ (calculateETA distanceKm None <= 0)%Z
  /\ call_fare v distanceKm estimatedMinutes
     = Normal (Zfloor (baseFare v + distanceKm * perKmRate v
                       + estimatedMinutes * perMinuteRate v + / 2))
  /\ (0 <= perKmRate v ->
      (fare v distanceKm estimatedMinutes <= fare v 0 estimatedMinutes)%Z).
Proof.
  intros Hneg. repeat split.
  - unfold calculateETA, Math_ceil.
    pose proof (Zceil_bound (distanceKm / 30 * 60)) as [Hlo _].
    apply le_IZR. change (IZR 0) with 0.
    apply Rnot_lt_le. intros Hpos.
    assert (1 <= IZR (Zceil (distanceKm / 30 * 60))) as H1.
    { apply (IZR_le 1). apply lt_IZR in Hpos. lia. }
    lra.
  - intros Hk. unfold fare, Math_round. apply Zfloor_le. nra.
Qed.

Lemma negative_distance_not_rejected_witness :
  -30 < 0 /\
  call_calculateETA (-30) None = Normal (Zceil (-30 / 30 * 60))
  /\ (calculateETA (-30) None <= 0)%Z
  /\ call_fare economy (-30) (-60)
     = Normal (Zfloor (baseFare economy + -30 * perKmRate economy
                       + -60 * perMinuteRate economy + / 2))
  /\ (0 <= perKmRate economy ->
      (fare economy (-30) (-60) <= fare economy 0 (-60))%Z).
Proof.
  split; [lra|].
  apply (negative_distance_not_rejected (-30) economy (-60)). lra.
Defined.

(** ** Monotonicity of the fare *)

Lemma vehicles_rates_nonneg (v : Vehicle) :
  In v vehicles -> 0 <= perKmRate v /\ 0 <= perMinuteRate v.
Proof.
  unfold vehicles. cbn [In].
  intros [<-|[<-|[<-|[]]]]; cbn [perKmRate perMinuteRate economy comfort premium];
    lra.
Qed.

(** C8: for each of the three vehicle classes the fare is monotonically
    non-decreasing in [distanceKm] and in [etaMinutes]. *)
Theorem fare_monotone (v : Vehicle) (d1 d2 e1 e2 : R) :
  In v vehicles -> d1 <= d2 -> e1 <= e2 ->
  (fare v d1 e1 <= fare v d2 e1)%Z
  /\ (fare v d1 e1 <= fare v d1 e2)%Z
  /\ (fare v d1 e1 <= fare v d2 e2)%Z.
Proof.
  intros Hv Hd He. destruct (vehicles_rates_nonneg v Hv) as [Hk Hm].
  unfold fare, Math_round. repeat split; apply Zfloor_le; nra.
Qed.

Lemma fare_monotone_witness :
  In economy vehicles /\ 1 <= 2 /\ 3 <= 4 /\
  (fare economy 1 3 <= fare economy 2 3)%Z
  /\ (fare economy 1 3 <= fare economy 1 4)%Z
  /\ (fare economy 1 3 <= fare economy 2 4)%Z.
Proof.
  assert (In economy vehicles) as Hin by (left; reflexivity).
  split; [exact Hin|]. split; [lra|]. split; [lra|].
  apply (fare_monotone economy 1 2 3 4 Hin); lra.
Defined.

End TripMathFacts.

(** * The distance on doubles *)

Section TripMathDoubleFacts.
Import PrimFloat TripMathDouble.
Local Open Scope float_scope.

(** C10 (code bug): on doubles [calculateDistance] does not always return
    a non-negative number.  With any engine whose [Math.atan2] returns NaN
    for a NaN argument (as the language requires), whenever the
    intermediate [a] comes out as the double just above 1, as it does for
    some pairs of opposite points, [1 - a] is negative, [Math.sqrt(1 - a)]
    is NaN and the function returns NaN. *)
Theorem calculateDistance_double_nan (E : Engine)
    (lat1 lon1 lat2 lon2 : float) :
  (forall y, Math_atan2 E y nan = nan) ->
  haversine_a E lat1 lon1 lat2 lon2 = 0x1.0000000000001p+0 ->
  sqrt (1 - haversine_a E lat1 lon1 lat2 lon2) = nan
  /\ calculateDistance E lat1 lon1 lat2 lon2 = nan.
Proof.
  intros Hn Ha. unfold calculateDistance; cbv zeta. rewrite Ha.
  change (sqrt (1 - 0x1.0000000000001p+0)) with nan. rewrite Hn.
  split; reflexivity.
Qed.

Lemma calculateDistance_double_nan_witness :
  haversine_a sampled (-12) (-180) 12 0 = 0x1.0000000000001p+0
  /\ calculateDistance sampled (-12) (-180) 12 0 = nan.
Proof.
  assert (haversine_a sampled (-12) (-180) 12 0 = 0x1.0000000000001p+0)
    as Ha by (vm_compute; reflexivity).
  split; [exact Ha|].
  apply (calculateDistance_double_nan sampled (-12) (-180) 12 0);
    [intros y; reflexivity|exact Ha].
Defined.

End TripMathDoubleFacts.

(** * Properties of the location provider *)

Section LocationProviderFacts.
Import LocationProvider.

(** Tracking can be active while the permission is no longer granted (the
    permission is asked again and denied after the watch has started): the
    call then returns [false].  Two calls made before the first promise
    resolves both start a native watch. *)
Lemma startLocationTracking_not_always_success :
  let revoked :=
    run [CheckPermission (Some true); StartTracking None; WatchResolved;
         RequestPermission (Some false)] initial in
  let twice :=
    run [CheckPermission (Some true); StartTracking None; StartTracking None]
        initial in
  isTracking revoked = true
  /\ (startLocationTracking None revoked).1 = false
  /\ length (watches twice) = 2.
Proof. repeat split. Qed.

(** C5 (amended): while [isTracking] is true a call of
    [startLocationTracking] changes nothing: no native watch is started
    and [watchId], with the rest of the state, is unchanged.  It returns
    [true] when the permission is granted and [false] otherwise, the
    permission being checked first. *)
Theorem startLocationTracking_while_tracking (cb : option Handler) (w : World) :
  isTracking w = true ->
  (startLocationTracking cb w).2 = w
  /\ watches (startLocationTracking cb w).2 = watches w
  /\ watchId (startLocationTracking cb w).2 = watchId w
  /\ (startLocationTracking cb w).1 = negb (not_granted (locationPermission w))
  /\ (locationPermission w = Some true ->
      startLocationTracking cb w = (true, w)).
Proof.
  intros Ht. unfold startLocationTracking. rewrite Ht.
  destruct (locationPermission w) as [[|]|]; cbn; repeat split; congruence.
Qed.

Lemma startLocationTracking_while_tracking_witness :
  let w := run [CheckPermission (Some true); StartTracking (Some 3);
                WatchResolved] initial in
  isTracking w = true
  /\ (startLocationTracking (Some 4) w).2 = w
  /\ (startLocationTracking (Some 4) w).1 = true.
Proof.
  cbv zeta. split; [reflexivity|].
  destruct (startLocationTracking_while_tracking (Some 4)
              (run [CheckPermission (Some true); StartTracking (Some 3);
                    WatchResolved] initial) eq_refl)
    as (Hw & _ & _ & Hr & _).
  split; [exact Hw|exact Hr].
Defined.

(** C9: without the permission ([locationPermission] null or false)
    [startLocationTracking] returns [false] and leaves the provider and
    the plugin as they were: no native watch, [isTracking], [watchId] and
    [currentLocation] unchanged. *)
Theorem startLocationTracking_without_permission
    (cb : option Handler) (w : World) :
  locationPermission w = None \/ locationPermission w = Some false ->
  startLocationTracking cb w = (false, w)
  /\ watches (startLocationTracking cb w).2 = watches w
  /\ isTracking (startLocationTracking cb w).2 = isTracking w
  /\ watchId (startLocationTracking cb w).2 = watchId w
  /\ currentLocation (startLocationTracking cb w).2 = currentLocation w.
Proof.
  unfold startLocationTracking. intros [-> | ->]; cbn; repeat split.
Qed.

Lemma startLocationTracking_without_permission_witness :
  (locationPermission initial = None \/ locationPermission initial = Some false)
  /\ startLocationTracking (Some 1) initial = (false, initial).
Proof.
  split; [left; reflexivity|].
  apply (startLocationTracking_without_permission (Some 1) initial).
  left; reflexivity.
Defined.

End LocationProviderFacts.

(** * Properties of the socket provider *)

Section SocketProviderFacts.
Import SocketProvider.

(** ** Listener arrays are untouched by everything but [on] and [off] *)

Lemma listeners_tables (s : nat) (ev : string) (w : World) :
  listeners s ev w = default [] (tables w !! s ≫= (.!! ev)).
Proof.
  unfold listeners, tables. rewrite lookup_fmap.
  destruct (heap w !! s) as [o|]; cbn; [|reflexivity].
  now destruct (callbacks o !! ev).
Qed.

Lemma tables_update (w : World) (s : nat) (o o' : Socket) :
  heap w !! s = Some o -> callbacks o' = callbacks o ->
  tables (set_heap (<[s := o']> (heap w)) w) = tables w.
Proof.
  intros Hs Hc. unfold tables; cbn. rewrite fmap_insert.
  apply insert_id. rewrite lookup_fmap, Hs; cbn. congruence.
Qed.

Lemma tables_socket_emit (s : nat) (ev arg : string) (w : World) :
  tables (socket_emit s ev arg w) = tables w.
Proof.
  unfold socket_emit. destruct (heap w !! s) as [o|] eqn:Hs; [|reflexivity].
  destruct (connected o); [reflexivity|]. now apply tables_update with o.
Qed.

Lemma tables_set_connected (s : nat) (b : bool) (w : World) :
  tables (set_connected s b w) = tables w.
Proof.
  unfold set_connected. destruct (heap w !! s) as [o|] eqn:Hs; [|reflexivity].
  now apply tables_update with o.
Qed.

Lemma tables_flush (s : nat) (w : World) : tables (flush s w) = tables w.
Proof.
  unfold flush. destruct (heap w !! s) as [o|] eqn:Hs; [|reflexivity].
  change (tables (transmit ?ps ?w')) with (tables w').
  now apply tables_update with o.
Qed.

Lemma tables_run_listener (s : nat) (data : string) (l : Listener) (w : World) :
  tables (run_listener s data l w) = tables w.
Proof.
  destruct l as [[u|]| | | | |cb]; cbn [run_listener]; try reflexivity.
  now rewrite !tables_socket_emit.
Qed.

Lemma tables_foldl_listeners (s : nat) (data : string) (ls : list Listener)
    (w : World) :
  tables (foldl (fun w l => run_listener s data l w) w ls) = tables w.
Proof.
  revert w. induction ls as [|l ls IH]; intros w; cbn; [reflexivity|].
  now rewrite IH, tables_run_listener.
Qed.

Lemma tables_dispatch (s : nat) (ev data : string) (w : World) :
  tables (dispatch s ev data w) = tables w.
Proof. apply tables_foldl_listeners. Qed.

Lemma tables_transport_connect (s : nat) (w : World) :
  tables (transport_connect s w) = tables w.
Proof.
  unfold transport_connect.
  now rewrite tables_dispatch, tables_flush, tables_set_connected.
Qed.

Lemma tables_transport_disconnect (s : nat) (w : World) :
  tables (transport_disconnect s w) = tables w.
Proof.
  unfold transport_disconnect.
  now rewrite tables_dispatch, tables_set_connected.
Qed.

Lemma tables_disconnectSocket (w : World) :
  tables (disconnectSocket w) = tables w.
Proof.
  unfold disconnectSocket. destruct (socket w) as [s|]; [|reflexivity].
  change (tables (socket_disconnect s w) = tables w).
  unfold socket_disconnect. destruct (socket_connected s w); [|reflexivity].
  apply tables_transport_disconnect.
Qed.

(** A new socket gets a key that no existing socket has. *)
Lemma tables_initializeSocket (user : option User) (w : World) :
  tables w ⊆ tables (initializeSocket user w).
Proof.
  unfold initializeSocket, tables; cbn. rewrite fmap_insert.
  apply insert_subseteq. rewrite lookup_fmap.
  pose proof (is_fresh (dom (heap w))) as Hf.
  apply not_elem_of_dom in Hf. now rewrite Hf.
Qed.

Lemma tables_transition (t : Transition) (w : World) :
  tables w ⊆ tables (transition t w).
Proof.
  destruct t as [s|s|s|s|s|token user]; cbn [transition].
  - now rewrite tables_transport_connect.
  - now rewrite tables_transport_disconnect.
  - now rewrite tables_dispatch.
  - now rewrite tables_dispatch.
  - now rewrite tables_dispatch.
  - unfold authEffect.
    destruct token as [t|], user; try destruct (bool_decide (t = ""));
      rewrite ?tables_disconnectSocket; try reflexivity.
    apply tables_initializeSocket.
Qed.

Lemma tables_transitions (ts : list Transition) (w : World) :
  tables w ⊆ tables (transitions ts w).
Proof.
  revert w. induction ts as [|t ts IH]; intros w; cbn; [reflexivity|].
  etransitivity; [apply tables_transition|apply IH].
Qed.

Lemma listeners_transitions (ts : list Transition) (s : nat) (ev : string)
    (w : World) :
  is_Some (heap w !! s) ->
  listeners s ev (transitions ts w) = listeners s ev w.
Proof.
  intros [o Ho]. rewrite !listeners_tables.
  assert (tables w !! s = Some (callbacks o)) as Hl.
  { unfold tables. now rewrite lookup_fmap, Ho. }
  pose proof (tables_transitions ts w) as Hsub.
  rewrite (lookup_weaken _ _ _ _ Hl Hsub), Hl. reflexivity.
Qed.

Lemma heap_transitions (ts : list Transition) (s : nat) (w : World) :
  is_Some (heap w !! s) -> is_Some (heap (transitions ts w) !! s).
Proof.
  intros [o Ho].
  assert (tables w !! s = Some (callbacks o)) as Hl.
  { unfold tables. now rewrite lookup_fmap, Ho. }
  pose proof (lookup_weaken _ _ _ _ Hl (tables_transitions ts w)) as Hl'.
  unfold tables in Hl'. rewrite lookup_fmap in Hl'.
  destruct (heap (transitions ts w) !! s); [eauto|discriminate].
Qed.

(** ** Subscriptions *)

Lemma subscribers_socket_on (s : nat) (kind : string) (cb : nat) (w : World) :
  is_Some (heap w !! s) ->
  subscribers s kind (socket_on s kind (Callback cb) w)
  = subscribers s kind w ++ [cb].
Proof.
  intros [o Ho].
  assert (listeners s kind (socket_on s kind (Callback cb) w)
          = listeners s kind w ++ [Callback cb]) as Hl.
  { unfold listeners, socket_on. rewrite Ho; cbn [heap set_heap].
    rewrite lookup_insert_eq; cbn [callbacks].
    now rewrite lookup_insert_eq. }
  unfold subscribers. rewrite Hl, omap_app. reflexivity.
Qed.

Lemma invoked_socket_emit (s : nat) (ev arg : string) (w : World) :
  invoked (socket_emit s ev arg w) = invoked w.
Proof.
  unfold socket_emit. destruct (heap w !! s) as [o|]; [|reflexivity].
  now destruct (connected o).
Qed.

Lemma invoked_foldl_listeners (s : nat) (data : string) (ls : list Listener)
    (w : World) :
  invoked (foldl (fun w l => run_listener s data l w) w ls)
  = invoked w
    ++ map (fun c => (c, data))
         (omap (fun l => match l with Callback cb => Some cb | _ => None end) ls).
Proof.
  revert w. induction ls as [|l ls IH]; intros w; cbn [foldl].
  - cbn. now rewrite app_nil_r.
  - rewrite IH. destruct l as [[u|]| | | | |cb]; cbn;
      rewrite ?invoked_socket_emit; cbn; try reflexivity.
    now rewrite <- app_assoc.
Qed.

Lemma invoked_dispatch (s : nat) (ev data : string) (w : World) :
  invoked (dispatch s ev data w)
  = invoked w ++ map (fun c => (c, data)) (subscribers s ev w).
Proof. apply invoked_foldl_listeners. Qed.

(** A callback registered on one socket is not called for an event that
    arrives on the socket created after a logout and a new login; and with
    no socket a subscription registers nothing. *)
Lemma handler_not_invoked_after_relogin :
  let w0 := transitions [Auth (Some "t1") (Some dana); Connect 0] initial in
  let sub := onTripStatusUpdate 7 w0 in
  let w1 := transitions [Auth None None; Auth (Some "t2") (Some dana);
                         Connect 1] sub.2 in
  is_Some sub.1
  /\ socket w1 = Some 1 /\ isConnected w1 = true
  /\ invoked (inbound 1 "trip-status" "arrived" w1) = []
  /\ onTripStatusUpdate 7 initial = (None, initial).
Proof. vm_compute. repeat split. eauto. Qed.

(** C3 (amended): a callback passed to a subscription function while the
    provider holds a socket is appended to that socket's listeners of the
    kind.  Whatever connection-state transitions follow ([connect],
    [disconnect], [connect_error], [reconnect], [reconnect_failed], the
    credentials changing), the subscribers of that socket stay the same, and
    an event of the kind arriving on that socket calls all of them with the
    event's data, in subscription order.  [onTripStatusUpdate] is
    [subscribe "trip-status"] and [onDriverLocationUpdate] is
    [subscribe "driver-location"]. *)
Theorem subscribers_invoked_in_order (w : World) (s : nat) (kind : string)
    (cb : nat) (ts : list Transition) (data : string) :
  socket w = Some s -> is_Some (heap w !! s) ->
  let w1 := (subscribe kind cb w).2 in
  let w2 := transitions ts w1 in
  subscribers s kind w2 = subscribers s kind w ++ [cb]
  /\ (socket_connected s w2 = true ->
      invoked (inbound s kind data w2)
      = invoked w2
        ++ map (fun c => (c, data)) (subscribers s kind w ++ [cb])).
Proof.
  intros Hs Hh. cbv zeta. unfold subscribe. rewrite Hs; cbn [snd].
  assert (is_Some (heap (socket_on s kind (Callback cb) w) !! s)) as Hh'.
  { destruct Hh as [o Ho]. unfold socket_on. rewrite Ho; cbn.
    rewrite lookup_insert_eq. eauto. }
  assert (subscribers s kind
            (transitions ts (socket_on s kind (Callback cb) w))
          = subscribers s kind w ++ [cb]) as Hsub.
  { unfold subscribers at 1. rewrite listeners_transitions by exact Hh'.
    now apply subscribers_socket_on. }
  split; [exact Hsub|].
  intros Hc. unfold inbound. rewrite Hc, invoked_dispatch, Hsub. reflexivity.
Qed.

Lemma subscribers_invoked_in_order_witness :
  let w := transitions [Auth (Some "t1") (Some dana); Connect 0] initial in
  let w1 := (onTripStatusUpdate 8 (onTripStatusUpdate 7 w).2).2 in
  let w2 := transitions [Disconnect 0; Connect 0] w1 in
  invoked (inbound 0 "trip-status" "arrived" w2)
  = [(7, "arrived"); (8, "arrived")].
Proof.
  cbv zeta.
  pose proof (subscribers_invoked_in_order
                (onTripStatusUpdate 7
                   (transitions [Auth (Some "t1") (Some dana); Connect 0]
                      initial)).2
                0 "trip-status" 8 [Disconnect 0; Connect 0] "arrived"
                eq_refl (mk_is_Some _ _ eq_refl)) as [_ H].
  exact (H eq_refl).
Defined.

(** ** Trip rooms *)

(** C4: when the provider has no socket or [isConnected] is false,
    [joinTripRoom] and [leaveTripRoom] leave everything as it was: nothing
    is sent, nothing is buffered on any socket, no state changes. *)
Theorem trip_room_noop_when_not_connected (tripId : string) (w : World) :
  socket w = None \/ isConnected w = false ->
  joinTripRoom tripId w = w /\ leaveTripRoom tripId w = w.
Proof.
  unfold joinTripRoom, leaveTripRoom.
  intros [-> | ->]; [now split|]. now destruct (socket w).
Qed.

Lemma trip_room_noop_when_not_connected_witness :
  let w := transitions [Auth (Some "t1") (Some dana); Connect 0; Disconnect 0]
             initial in
  (socket w = None \/ isConnected w = false)
  /\ joinTripRoom "17" w = w /\ leaveTripRoom "17" w = w.
Proof.
  cbv zeta. split; [right; reflexivity|].
  apply trip_room_noop_when_not_connected. right; reflexivity.
Defined.

(** ** Joining the standing rooms on connection *)

Lemma listeners_initializeSocket_connect (user : option User) (w : World) :
  listeners (fresh (dom (heap w))) "connect" (initializeSocket user w)
  = [ConnectHandler user].
Proof.
  unfold listeners, initializeSocket; cbn. rewrite lookup_insert_eq; cbn.
  reflexivity.
Qed.

(** C6: on a socket created by [initializeSocket] for a logged-in user,
    whatever transitions happened since, the [connect] event sets
    [isConnected] and sends (after what the socket had buffered) exactly two
    packets: [join-room] for [user-<id>] and [join-room] for
    [<userType>s]. *)
Theorem connect_joins_standing_rooms (w : World) (u : User)
    (ts : list Transition) :
  let s := fresh (dom (heap w)) in
  let w1 := transitions ts (initializeSocket (Some u) w) in
  let w2 := transport_connect s w1 in
  isConnected w2 = true
  /\ wire w2
     = wire w1 ++ map (fun p => (s, p)) (buffered s w1)
       ++ [(s, ("join-room", "user-" +:+ id u));
           (s, ("join-room", UserType_string (userType u) +:+ "s"))].
Proof.
  cbv zeta. set (s := fresh (dom (heap w))).
  set (w1 := transitions ts (initializeSocket (Some u) w)).
  assert (is_Some (heap (initializeSocket (Some u) w) !! s)) as Hi.
  { unfold initializeSocket; cbn. rewrite lookup_insert_eq. eauto. }
  destruct (heap_transitions ts s _ Hi) as [o Ho]. fold w1 in Ho.
  assert (listeners s "connect" w1 = [ConnectHandler (Some u)]) as Hl.
  { unfold w1. rewrite listeners_transitions by exact Hi.
    apply listeners_initializeSocket_connect. }
  unfold transport_connect, dispatch.
  set (w' := flush s (set_connected s true w1)).
  assert (listeners s "connect" w' = listeners s "connect" w1) as Hl'.
  { rewrite !listeners_tables. unfold w'.
    now rewrite tables_flush, tables_set_connected. }
  rewrite Hl', Hl. cbn [foldl run_listener].
  assert (heap w' !! s = Some {| connected := true; callbacks := callbacks o;
                                 sendBuffer := [] |}
          /\ wire w' = wire w1 ++ map (fun p => (s, p)) (sendBuffer o)) as [Hw' Hwire].
  { unfold w', flush, set_connected. rewrite Ho; cbn.
    rewrite lookup_insert_eq; cbn. rewrite lookup_insert_eq. now split. }
  unfold buffered. rewrite Ho.
  unfold socket_emit; cbn. rewrite Hw'; cbn. rewrite Hw'; cbn.
  split; [reflexivity|]. rewrite Hwire, <- !app_assoc. reflexivity.
Qed.

End SocketProviderFacts.

(** * Further properties of the trip mathematics *)

Section TripMathMore.
Import TripMath.
Local Open Scope R_scope.

(** ** The ETA *)

(** X2: for a positive speed the ETA does not decrease with the distance,
    is 0 for distance 0 and is never negative for a non-negative
    distance. *)
Theorem calculateETA_monotone (d1 d2 speed : R) :
  0 < speed -> 0 <= d1 <= d2 ->
  calculateETA 0 (Some speed) = 0%Z
  /\ (0 <= calculateETA d1 (Some speed))%Z
  /\ (calculateETA d1 (Some speed) <= calculateETA d2 (Some speed))%Z.
Proof.
  intros Hs [H0 Hd]. unfold calculateETA, Math_ceil.
  assert (0 < / speed) as Hi by now apply Rinv_0_lt_compat.
  assert (Zceil (0 / speed * 60) = 0%Z) as Hz.
  { apply Zceil_eq. unfold Rdiv. rewrite Rmult_0_l, Rmult_0_l. lra. }
  repeat split.
  - exact Hz.
  - rewrite <- Hz. apply Zceil_le. unfold Rdiv. nra.
  - apply Zceil_le. unfold Rdiv. nra.
Qed.

Lemma calculateETA_monotone_witness :
  (0 <= calculateETA 3%R (Some 30%R))%Z
  /\ (calculateETA 3%R (Some 30%R) <= calculateETA 4%R (Some 30%R))%Z.
Proof.
  destruct (calculateETA_monotone 3 4 30 ltac:(lra) ltac:(lra))
    as (_ & H1 & H2).
  split; [exact H1|exact H2].
Defined.

(** ** Geometry of [calculateDistance] *)

Lemma haversine_a_shift (lat1 lon1 lat2 lon2 t : R) :
  haversine_a lat1 (lon1 + t) lat2 (lon2 + t) = haversine_a lat1 lon1 lat2 lon2.
Proof.
  unfold haversine_a; cbv zeta.
  replace (lon2 + t - (lon1 + t)) with (lon2 - lon1) by ring. reflexivity.
Qed.

Lemma haversine_a_turn (lat1 lon1 lat2 lon2 : R) :
  haversine_a lat1 lon1 lat2 (lon2 + 360) = haversine_a lat1 lon1 lat2 lon2.
Proof.
  unfold haversine_a; cbv zeta.
  replace ((lon2 + 360 - lon1) * PI / 180 / 2)
    with ((lon2 - lon1) * PI / 180 / 2 + PI) by field.
  rewrite neg_sin. ring.
Qed.

(** X3: the distance depends on the two longitudes only through their
    difference, and a full turn of 360 degrees in longitude does not
    change it. *)
Theorem calculateDistance_longitude (lat1 lon1 lat2 lon2 t : R) :
  calculateDistance lat1 (lon1 + t) lat2 (lon2 + t)
  = calculateDistance lat1 lon1 lat2 lon2
  /\ calculateDistance lat1 lon1 lat2 (lon2 + 360)
     = calculateDistance lat1 lon1 lat2 lon2.
Proof.
  unfold calculateDistance; cbv zeta.
  now rewrite haversine_a_shift, haversine_a_turn.
Qed.

(** The arc term for a squared sine gives the angle back. *)
Lemma arc_term_sin (x : R) :
  0 <= x <= PI / 2 ->
  atan2 (sqrt (sin x * sin x)) (sqrt (1 - sin x * sin x)) = x.
Proof.
  intros [H0 H1]. pose proof PI_RGT_0 as Hpi.
  assert (0 <= sin x) as Hs by (apply sin_ge_0; lra).
  assert (0 <= cos x) as Hc by (apply cos_ge_0; lra).
  replace (1 - sin x * sin x) with (cos x * cos x)
    by (pose proof (sin2_cos2 x) as H; unfold Rsqr in H; lra).
  rewrite !sqrt_square by assumption.
  unfold atan2. destruct (Rlt_dec 0 (cos x)) as [Hp|Hn].
  - destruct H1 as [H1|H1].
    + change (sin x / cos x) with (tan x). apply atan_tan. lra.
    + rewrite H1, cos_PI2 in Hp. lra.
  - destruct (Rlt_dec (cos x) 0); [lra|].
    assert (cos x = 0) as Hz by lra.
    destruct H1 as [H1|H1].
    + pose proof (cos_gt_0 x ltac:(lra) H1). lra.
    + rewrite H1, sin_PI2. destruct (Rlt_dec 0 1); lra.
Qed.

Lemma arc_length_north (lat1 lat2 lon : R) :
  0 <= lat2 - lat1 <= 180 ->
  calculateDistance lat1 lon lat2 lon = 6371 * ((lat2 - lat1) * PI / 180).
Proof.
  intros H. pose proof PI_RGT_0 as Hpi.
  unfold calculateDistance, haversine_a; cbv zeta.
  replace ((lon - lon) * PI / 180 / 2) with 0 by field.
  rewrite sin_0, !Rmult_0_r, Rplus_0_r.
  rewrite arc_term_sin; [field|]. split; nra.
Qed.

Lemma arc_length_east (lon1 lon2 : R) :
  0 <= lon2 - lon1 <= 180 ->
  calculateDistance 0 lon1 0 lon2 = 6371 * ((lon2 - lon1) * PI / 180).
Proof.
  intros H. pose proof PI_RGT_0 as Hpi.
  unfold calculateDistance, haversine_a; cbv zeta.
  replace ((0 - 0) * PI / 180 / 2) with 0 by field.
  replace (0 * PI / 180) with 0 by field.
  rewrite sin_0, cos_0, !Rmult_0_r, Rplus_0_l, !Rmult_1_l.
  rewrite arc_term_sin; [field|]. split; nra.
Qed.

(** X5: between two points on one meridian, and between two points on the
    equator, the distance is the arc length: the radius 6371 times the
    angle between them in radians, for angles up to 180 degrees. *)
Theorem calculateDistance_arc_length (p q lon : R) :
  Rabs (q - p) <= 180 ->
  calculateDistance p lon q lon = 6371 * (Rabs (q - p) * PI / 180)
  /\ calculateDistance 0 p 0 q = 6371 * (Rabs (q - p) * PI / 180).
Proof.
  intros H. unfold Rabs in *. destruct (Rcase_abs (q - p)) as [Hn|Hp].
  - unfold calculateDistance; cbv zeta.
    rewrite (haversine_a_sym p lon q lon), (haversine_a_sym 0 p 0 q).
    replace (- (q - p)) with (p - q) by ring.
    split; [apply (arc_length_north q p lon)|apply (arc_length_east q p)]; lra.
  - split; [apply arc_length_north|apply arc_length_east]; lra.
Qed.

Lemma calculateDistance_arc_length_witness :
  calculateDistance 10 20 (-80) 20 = 6371 * (Rabs (-80 - 10) * PI / 180).
Proof.
  apply (calculateDistance_arc_length 10 (-80) 20).
  unfold Rabs. destruct (Rcase_abs (-80 - 10)); lra.
Defined.

End TripMathMore.

(** * Further properties of the quote *)

Section QuoteMore.
Import TripMath.
Local Open Scope R_scope.

Lemma find_vehicle_listed (v : Vehicle) :
  In v vehicles -> find_vehicle (type v) = Normal v.
Proof.
  unfold vehicles. cbn [In]. intros [<-|[<-|[<-|[]]]]; reflexivity.
Qed.

Lemma find_vehicle_unlisted (selectedVehicle : string) :
  selectedVehicle <> "economy" -> selectedVehicle <> "comfort" ->
  selectedVehicle <> "premium" ->
  find_vehicle selectedVehicle = Throw TypeError.
Proof.
  intros H1 H2 H3. unfold find_vehicle, vehicles. cbn [List.find type economy comfort premium].
  rewrite !bool_decide_eq_false_2 by congruence. reflexivity.
Qed.

Lemma Zceil_nonneg (x : R) : 0 <= x -> (0 <= Zceil x)%Z.
Proof.
  intros Hx. replace 0%Z with (Zceil 0) by (apply Zceil_eq; lra).
  now apply Zceil_le.
Qed.

(** X6: with a current location, [calculateTripDetails] completes for the
    three vehicle types "economy", "comfort" and "premium" and throws a
    [TypeError] for every other string; without a current location it
    returns at once and the quote on screen stays as it was, whatever the
    vehicle string. *)
Theorem calculateTripDetails_completion (cur : Coordinates)
    (selectedVehicle : string) (old : Quote) :
  (selectedVehicle = "economy" \/ selectedVehicle = "comfort"
   \/ selectedVehicle = "premium" ->
   exists q, calculateTripDetails (Some cur) selectedVehicle old = Normal q)
  /\ (selectedVehicle <> "economy" -> selectedVehicle <> "comfort" ->
      selectedVehicle <> "premium" ->
      calculateTripDetails (Some cur) selectedVehicle old = Throw TypeError)
  /\ calculateTripDetails None selectedVehicle old = Normal old.
Proof.
  split; [|split; [|reflexivity]].
  - unfold calculateTripDetails, mockDropoffLocation.
    intros [-> | [-> | ->]];
      [change (find_vehicle "economy") with (Normal economy)
      |change (find_vehicle "comfort") with (Normal comfort)
      |change (find_vehicle "premium") with (Normal premium)];
      cbn [cbind]; eauto.
  - intros H1 H2 H3. unfold calculateTripDetails, mockDropoffLocation.
    now rewrite find_vehicle_unlisted.
Qed.

Lemma calculateTripDetails_completion_witness :
  calculateTripDetails (Some origin) "limousine"
    {| distance := 0; estimatedTime := 0; estimatedFare := 0 |}
  = Throw TypeError.
Proof.
  apply (calculateTripDetails_completion origin "limousine"); discriminate.
Defined.

(** X7: for a current location and one of the three vehicles, the quote
    that [calculateTripDetails] sets has a time that is not negative, a
    fare of at least the vehicle's base fare and a displayed distance
    between 0 and half the circumference rounded to a tenth. *)
Theorem calculateTripDetails_bounds (cur : Coordinates) (v : Vehicle)
    (old : Quote) :
  In v vehicles ->
  exists q,
    calculateTripDetails (Some cur) (type v) old = Normal q
    /\ (0 <= estimatedTime q)%Z
    /\ baseFare v <= IZR (estimatedFare q)
    /\ 0 <= distance q <= 6371 * PI + / 20.
Proof.
  intros Hv. unfold calculateTripDetails, mockDropoffLocation.
  rewrite (find_vehicle_listed v Hv); cbn [cbind latitude longitude].
  set (d := calculateDistance (latitude cur) (longitude cur)
              (latitude cur + 5 / 100) (longitude cur + 5 / 100)).
  pose proof (calculateDistance_range (latitude cur) (longitude cur)
                (latitude cur + 5 / 100) (longitude cur + 5 / 100)) as Hd.
  fold d in Hd.
  assert (0 <= calculateETA d None)%Z as He.
  { unfold calculateETA, Math_ceil. apply Zceil_nonneg. lra. }
  eexists. split; [reflexivity|]. cbn [estimatedTime estimatedFare distance].
  split; [exact He|].
  apply IZR_le in He. set (e := IZR (calculateETA d None)) in *.
  split.
  - unfold fare, Math_round.
    revert Hv. unfold vehicles. cbn [In].
    intros [<-|[<-|[<-|[]]]]; cbn [baseFare perKmRate perMinuteRate economy comfort premium].
    + apply (IZR_le 25), Zfloor_lub. nra.
    + apply (IZR_le 35), Zfloor_lub. nra.
    + apply (IZR_le 50), Zfloor_lub. nra.
  - unfold Math_round.
    pose proof (Zfloor_bound (d * 10 + / 2)) as [Hlo Hhi].
    assert (0 <= IZR (Zfloor (d * 10 + / 2))).
    { apply (IZR_le 0), Zfloor_lub. lra. }
    lra.
Qed.

Lemma calculateTripDetails_bounds_witness :
  exists q,
    calculateTripDetails (Some origin) "comfort"
      {| distance := 0; estimatedTime := 0; estimatedFare := 0 |} = Normal q
    /\ (0 <= estimatedTime q)%Z
    /\ 35 <= IZR (estimatedFare q)
    /\ 0 <= distance q <= 6371 * PI + / 20.
Proof.
  apply (calculateTripDetails_bounds origin comfort).
  right; left; reflexivity.
Defined.

(** X8: for the same trip (distance and time not negative) economy is
    never dearer than comfort, and comfort never dearer than premium. *)
Theorem fare_classes_ordered (distanceKm estimatedMinutes : R) :
  0 <= distanceKm -> 0 <= estimatedMinutes ->
  (fare economy distanceKm estimatedMinutes
   <= fare comfort distanceKm estimatedMinutes)%Z
  /\ (fare comfort distanceKm estimatedMinutes
      <= fare premium distanceKm estimatedMinutes)%Z.
Proof.
  intros Hd He. unfold fare, Math_round;
    cbn [baseFare perKmRate perMinuteRate economy comfort premium].
  split; apply Zfloor_le; nra.
Qed.

Lemma fare_classes_ordered_witness :
  (fare economy 8 16 <= fare comfort 8 16)%Z
  /\ (fare comfort 8 16 <= fare premium 8 16)%Z.
Proof. apply (fare_classes_ordered 8 16); lra. Defined.

End QuoteMore.

(** * Further properties of the location provider *)

Section LocationProviderMore.
Import LocationProvider.

Lemma running_clearWatch (i : CallbackID) (w : World) :
  running (Geolocation_clearWatch i w) = filter (fun j => j <> i) (running w).
Proof.
  unfold running; cbn [watches Geolocation_clearWatch].
  induction (watches w) as [|x l IH]; [reflexivity|].
  rewrite fmap_cons, !filter_cons.
  destruct (decide (watch_id x <> i)); [|exact IH].
  rewrite fmap_cons. now f_equal.
Qed.

(** X9: when a watch id is held, [stopLocationTracking] returns [true],
    clears [isTracking] and [watchId], and the native watch with that id
    is no longer running; a second call returns [false] and changes
    nothing. *)
Theorem stopLocationTracking_effective (w : World) (i : CallbackID) :
  watchId w = Some i ->
  let w' := (stopLocationTracking w).2 in
  (stopLocationTracking w).1 = true
  /\ isTracking w' = false /\ watchId w' = None
  /\ (i ∉ running w')
  /\ stopLocationTracking w' = (false, w').
Proof.
  intros Hi. cbv zeta.
  assert (stopLocationTracking w
          = (true, setIsTracking false
                     (setWatchId None (Geolocation_clearWatch i w)))) as ->.
  { unfold stopLocationTracking. now rewrite Hi. }
  cbn [fst snd].
  split; [reflexivity|]. split; [reflexivity|]. split; [reflexivity|].
  split; [|reflexivity].
  change (running (setIsTracking false
                     (setWatchId None (Geolocation_clearWatch i w))))
    with (running (Geolocation_clearWatch i w)).
  rewrite running_clearWatch, list_elem_of_filter. tauto.
Qed.

Lemma stopLocationTracking_effective_witness :
  let w := run [CheckPermission (Some true); StartTracking (Some 3);
                WatchResolved] initial in
  (stopLocationTracking w).1 = true
  /\ isTracking (stopLocationTracking w).2 = false
  /\ watchId (stopLocationTracking w).2 = None.
Proof.
  cbv zeta.
  destruct (stopLocationTracking_effective
              (run [CheckPermission (Some true); StartTracking (Some 3);
                    WatchResolved] initial) 0 eq_refl)
    as (H1 & H2 & H3 & _).
  split; [exact H1|]. split; [exact H2|exact H3].
Defined.

(** ** An invariant of the provider *)

Lemma consistent_initial : consistent initial.
Proof.
  unfold consistent, running; cbn.
  split; [split; [discriminate|intros [? ?]; discriminate]|].
  split; [constructor|]. split; [intros i Hi; inversion Hi|].
  split; [constructor|]. split; [intros i Hi; inversion Hi|].
  intros i Hi; discriminate.
Qed.

Lemma consistent_start (cb : option Handler) (w : World) :
  consistent w -> consistent (Geolocation_watchPosition cb w).
Proof.
  intros (Ht & Hnd & Hlt & Hpd & Hpr & Hid).
  unfold consistent, running in *;
    cbn [isTracking watchId watches promises nextId Geolocation_watchPosition].
  rewrite fmap_app; cbn [fmap list_fmap watch_id].
  split; [exact Ht|]. split.
  { apply NoDup_app. split; [exact Hnd|]. split; [|apply NoDup_singleton].
    intros x Hx ->%list_elem_of_singleton. apply Hlt in Hx. lia. }
  split.
  { intros x [Hx| ->%list_elem_of_singleton]%elem_of_app; [apply Hlt in Hx|]; lia. }
  split.
  { apply NoDup_app. split; [exact Hpd|]. split; [|apply NoDup_singleton].
    intros x Hx ->%list_elem_of_singleton. apply Hpr, Hlt in Hx. lia. }
  split.
  { intros x [Hx| Hx]%elem_of_app; apply elem_of_app; [left; now apply Hpr|now right]. }
  intros x Hx. destruct (Hid x Hx) as [Hr Hp]. split.
  - apply elem_of_app; now left.
  - intros [Hx'| ->%list_elem_of_singleton]%elem_of_app; [tauto|].
    apply Hlt in Hr. lia.
Qed.

Lemma consistent_resolved (w : World) :
  consistent w -> consistent (watchResolved w).
Proof.
  intros (Ht & Hnd & Hlt & Hpd & Hpr & Hid). unfold watchResolved.
  destruct (promises w) as [|i rest] eqn:Hp.
  { unfold consistent. rewrite Hp. tauto. }
  apply NoDup_cons in Hpd as [Hi Hrest].
  unfold consistent, running in *; cbn.
  split; [split; eauto|]. split; [exact Hnd|]. split; [exact Hlt|].
  split; [exact Hrest|]. split.
  { intros x Hx. apply Hpr. now right. }
  intros x [= <-]. split; [apply Hpr; now left|exact Hi].
Qed.

Lemma consistent_stop (w : World) :
  consistent w -> consistent (stopLocationTracking w).2.
Proof.
  intros H. unfold stopLocationTracking.
  destruct (watchId w) as [i|] eqn:Hw; [|exact H].
  destruct H as (Ht & Hnd & Hlt & Hpd & Hpr & Hid).
  destruct (Hid i Hw) as [Hir Hip].
  cbn [snd]. unfold consistent.
  change (running (setIsTracking false (setWatchId None (Geolocation_clearWatch i w))))
    with (running (Geolocation_clearWatch i w)).
  rewrite running_clearWatch. cbn.
  split; [split; [discriminate|intros [? ?]; discriminate]|].
  split; [now apply NoDup_filter|].
  split; [intros x [_ Hx]%list_elem_of_filter; now apply Hlt|].
  split; [exact Hpd|]. split.
  { intros x Hx. apply list_elem_of_filter. split; [|now apply Hpr].
    intros ->. tauto. }
  intros x Hx; discriminate.
Qed.

Lemma consistent_step (e : Event) (w : World) :
  consistent w -> consistent (step e w).
Proof.
  intros H. destruct e as [a|a|l|cb| |i l| ]; cbn [step].
  - destruct a as [g|]; exact H.
  - destruct a as [g|]; exact H.
  - exact H.
  - unfold startLocationTracking.
    destruct (not_granted (locationPermission w)); [exact H|].
    destruct (isTracking w); [exact H|]. now apply consistent_start.
  - now apply consistent_resolved.
  - unfold positionReceived.
    destruct (List.find _ (watches w)) as [x|]; [|exact H].
    destruct (onLocationUpdate x); exact H.
  - now apply consistent_stop.
Qed.

Lemma consistent_run (es : list Event) (w : World) :
  consistent w -> consistent (run es w).
Proof.
  revert w. induction es as [|e es IH]; intros w H; [exact H|].
  apply IH. now apply consistent_step.
Qed.

(** X10: in every state a provider reaches from its initial state,
    [isTracking] is true exactly when [watchId] is set, the id held is
    that of a running native watch, and the running native watches have
    distinct ids. *)
Theorem provider_state_consistent (es : list Event) :
  let w := run es initial in
  (isTracking w = true <-> is_Some (watchId w))
  /\ (forall i, watchId w = Some i -> i ∈ running w)
  /\ NoDup (running w).
Proof.
  cbv zeta.
  destruct (consistent_run es initial consistent_initial)
    as (Ht & Hnd & _ & _ & _ & Hid).
  split; [exact Ht|]. split; [|exact Hnd].
  intros i Hi. now apply Hid.
Qed.

(** X11: from a reached state with the permission granted, no tracking
    and no watch promise outstanding, starting, letting the promise
    resolve and stopping returns [true] both times and ends with the same
    native watches as before, not tracking, no watch id held. *)
Theorem start_resolve_stop (es : list Event) (cb : option Handler) :
  let w := run es initial in
  locationPermission w = Some true -> isTracking w = false ->
  promises w = [] ->
  let w1 := watchResolved (startLocationTracking cb w).2 in
  (startLocationTracking cb w).1 = true
  /\ isTracking w1 = true /\ watchId w1 = Some (nextId w)
  /\ (stopLocationTracking w1).1 = true
  /\ watches (stopLocationTracking w1).2 = watches w
  /\ isTracking (stopLocationTracking w1).2 = false
  /\ watchId (stopLocationTracking w1).2 = None.
Proof.
  cbv zeta. set (w := run es initial). intros Hp Ht Hpr.
  destruct (consistent_run es initial consistent_initial)
    as (_ & _ & Hlt & _). fold w in Hlt.
  unfold startLocationTracking. rewrite Hp, Ht; cbn [not_granted fst snd].
  unfold watchResolved;
    cbn [promises Geolocation_watchPosition]. rewrite Hpr; cbn [app].
  unfold stopLocationTracking; cbn. repeat split.
  rewrite filter_app, filter_cons_False, filter_nil, app_nil_r
    by (cbn; tauto).
  assert (forall l : list Watch,
            (forall x, x ∈ l -> watch_id x <> nextId w) ->
            filter (fun x => watch_id x <> nextId w) l = l) as Hf.
  { induction l as [|x l IH]; intros Hall; [reflexivity|].
    rewrite filter_cons_True by (apply Hall; now left).
    f_equal. apply IH. intros y Hy. apply Hall. now right. }
  apply Hf. intros x Hx. 
  assert (watch_id x ∈ running w) as Hr
    by (unfold running; now apply list_elem_of_fmap_2).
  apply Hlt in Hr. lia.
Qed.

Lemma start_resolve_stop_witness :
  let w := run [CheckPermission (Some true); StartTracking None;
                WatchResolved; StopTracking] initial in
  let w1 := watchResolved (startLocationTracking (Some 5) w).2 in
  watchId w1 = Some 1
  /\ watches (stopLocationTracking w1).2 = watches w.
Proof.
  cbv zeta.
  destruct (start_resolve_stop
              [CheckPermission (Some true); StartTracking None;
               WatchResolved; StopTracking] (Some 5)
              eq_refl eq_refl eq_refl)
    as (_ & _ & H1 & _ & H2 & _).
  split; [exact H1|exact H2].
Defined.

(** X12: when [requestLocationPermission] returns [true] the permission
    is stored as granted and the next [startLocationTracking] returns
    [true]; when the plugin answers "not granted" it returns [false] and
    the next [startLocationTracking] returns [false] and starts no watch;
    when the plugin call fails it returns [false] and leaves the stored
    permission as it was. *)
Theorem requestLocationPermission_then_start (answer : option bool)
    (cb : option Handler) (w : World) :
  let r := requestLocationPermission answer w in
  (r.1 = true ->
   locationPermission r.2 = Some true
   /\ (startLocationTracking cb r.2).1 = true)
  /\ (answer = Some false ->
      r.1 = false /\ startLocationTracking cb r.2 = (false, r.2))
  /\ (answer = None -> r = (false, w)).
Proof.
  cbv zeta. split; [|split].
  - destruct answer as [[|]|]; cbn; try discriminate. intros _.
    split; [reflexivity|]. unfold startLocationTracking; cbn.
    now destruct (isTracking w).
  - now intros ->.
  - now intros ->.
Qed.

Lemma requestLocationPermission_then_start_witness :
  (startLocationTracking None
     (requestLocationPermission (Some true) initial).2).1 = true.
Proof.
  apply (requestLocationPermission_then_start (Some true) None initial).
  reflexivity.
Defined.

End LocationProviderMore.

(** * Further properties of the socket provider *)

Section SocketProviderMore.
Import SocketProvider SocketEmitters.

(** ** Emitters *)

Lemma guarded_emit_noop (ev arg : string) (w : World) :
  socket w = None \/ isConnected w = false -> guarded_emit ev arg w = w.
Proof.
  unfold guarded_emit. intros [-> | ->]; [reflexivity|].
  now destruct (socket w).
Qed.

Lemma guarded_emit_sends (ev arg : string) (s : nat) (w : World) :
  socket w = Some s -> isConnected w = true -> socket_connected s w = true ->
  guarded_emit ev arg w = transmit [(s, (ev, arg))] w.
Proof.
  unfold guarded_emit, socket_emit, socket_connected. intros -> -> Hc.
  destruct (heap w !! s) as [o|]; [|discriminate]. now rewrite Hc.
Qed.

(** X13: without a socket, or with [isConnected] false, each of the five
    emitters ([updateDriverLocation], [updateTripStatus],
    [acceptTripRequest], [rejectTripRequest], [sendMessage]) leaves
    everything as it was: nothing is sent and nothing is buffered.  The
    last three do the same whenever no user is logged in. *)
Theorem emitters_noop (encode : gmap string Value -> string)
    (now tripId status reason message : string) (location : LatLng)
    (additionalData : option (gmap string Value)) (user : option User)
    (w : World) :
  (socket w = None \/ isConnected w = false ->
   updateDriverLocation encode now tripId location w = w
   /\ updateTripStatus encode now tripId status additionalData w = w
   /\ acceptTripRequest encode user tripId w = w
   /\ rejectTripRequest encode user tripId (Some reason) w = w
   /\ sendMessage encode user now tripId message w = w)
  /\ acceptTripRequest encode None tripId w = w
  /\ rejectTripRequest encode None tripId (Some reason) w = w
  /\ sendMessage encode None now tripId message w = w.
Proof.
  split; [|now repeat split]. intros H.
  unfold updateDriverLocation, updateTripStatus, acceptTripRequest,
    rejectTripRequest, sendMessage.
  destruct user; rewrite ?guarded_emit_noop by exact H; now repeat split.
Qed.

Lemma emitters_noop_witness :
  let w := transitions [Auth (Some "t1") (Some dana); Connect 0; Disconnect 0]
             initial in
  updateDriverLocation (fun _ => "{}") "2024-01-01T00:00:00.000Z" "17"
    {| latitude := 1; longitude := 2 |} w = w.
Proof.
  cbv zeta.
  set (w := transitions [Auth (Some "t1") (Some dana); Connect 0; Disconnect 0]
              initial).
  assert (isConnected w = false) as Hc by (vm_compute; reflexivity).
  destruct (emitters_noop (fun _ => "{}") "2024-01-01T00:00:00.000Z" "17"
              "arrived" "busy" "hello" {| latitude := 1; longitude := 2 |}
              None (Some dana) w) as [H _].
  destruct (H (or_intror Hc)) as [H1 _]. exact H1.
Defined.

(** X14: with a connected socket and [isConnected] true, each emitter
    sends exactly one packet on the provider's socket, under its own event
    name and carrying its object, and changes nothing else: no callback
    is called, no listener, flag or buffer changes. *)
Theorem emitters_send_one_packet (encode : gmap string Value -> string)
    (now tripId status reason message : string) (location : LatLng)
    (additionalData : gmap string Value) (u : User) (s : nat) (w : World) :
  socket w = Some s -> isConnected w = true -> socket_connected s w = true ->
  updateDriverLocation encode now tripId location w
  = transmit [(s, ("location-update",
                   encode (locationPayload now tripId location)))] w
  /\ updateTripStatus encode now tripId status (Some additionalData) w
     = transmit [(s, ("trip-status-update",
                      encode (tripStatusPayload now tripId status
                                additionalData)))] w
  /\ acceptTripRequest encode (Some u) tripId w
     = transmit [(s, ("accept-trip", encode (acceptPayload tripId u)))] w
  /\ rejectTripRequest encode (Some u) tripId (Some reason) w
     = transmit [(s, ("reject-trip",
                      encode (rejectPayload tripId u reason)))] w
  /\ sendMessage encode (Some u) now tripId message w
     = transmit [(s, ("send-message",
                      encode (messagePayload now tripId u message)))] w.
Proof.
  intros Hs Hc Hsc.
  unfold updateDriverLocation, updateTripStatus, acceptTripRequest,
    rejectTripRequest, sendMessage.
  repeat split; now apply guarded_emit_sends.
Qed.

Lemma emitters_send_one_packet_witness :
  let w := transitions [Auth (Some "t1") (Some dana); Connect 0] initial in
  wire (acceptTripRequest (fun _ => "{}") (Some dana) "17" w)
  = wire w ++ [(0, ("accept-trip", "{}"))].
Proof.
  cbv zeta.
  destruct (emitters_send_one_packet (fun _ => "{}") "now" "17" "arrived"
              "busy" "hello" {| latitude := 1; longitude := 2 |} ∅ dana 0
              (transitions [Auth (Some "t1") (Some dana); Connect 0] initial)
              eq_refl eq_refl eq_refl) as (_ & _ & H & _).
  now rewrite H.
Defined.

(** ** Unsubscribing *)

Lemma remove_first_last (l : Listener) (ls : list Listener) :
  l ∉ ls -> remove_first l (ls ++ [l]) = ls.
Proof.
  induction ls as [|x ls IH]; intros Hn; cbn.
  - now rewrite decide_True.
  - rewrite decide_False by (intros ->; apply Hn; now left).
    f_equal. apply IH. intros H; apply Hn; now right.
Qed.

Lemma listeners_socket_on (s : nat) (kind : string) (l : Listener)
    (s' : nat) (ev : string) (w : World) :
  is_Some (heap w !! s) ->
  listeners s' ev (socket_on s kind l w)
  = if decide (s' = s /\ ev = kind) then listeners s kind w ++ [l]
    else listeners s' ev w.
Proof.
  intros [o Ho]. unfold listeners, socket_on. rewrite Ho; cbn [heap set_heap].
  destruct (decide (s' = s /\ ev = kind)) as [[-> ->]|Hne].
  - rewrite lookup_insert_eq; cbn [callbacks]. now rewrite lookup_insert_eq.
  - destruct (decide (s' = s)) as [->|Hs].
    + rewrite lookup_insert_eq, Ho; cbn [callbacks].
      rewrite lookup_insert_ne by (intros ->; tauto). reflexivity.
    + rewrite lookup_insert_ne by congruence. reflexivity.
Qed.

Lemma listeners_socket_off (s : nat) (kind : string) (l : Listener)
    (s' : nat) (ev : string) (w : World) :
  listeners s' ev (socket_off s kind l w)
  = if decide (s' = s /\ ev = kind) then remove_first l (listeners s kind w)
    else listeners s' ev w.
Proof.
  unfold listeners, socket_off.
  destruct (heap w !! s) as [o|] eqn:Ho.
  - destruct (callbacks o !! kind) as [ls|] eqn:Hk; cbn [heap set_heap].
    + destruct (decide (s' = s /\ ev = kind)) as [[-> ->]|Hne].
      * rewrite lookup_insert_eq; cbn [callbacks]. now rewrite lookup_insert_eq.
      * destruct (decide (s' = s)) as [->|Hs].
        -- rewrite lookup_insert_eq, Ho; cbn [callbacks].
           rewrite lookup_insert_ne by (intros ->; tauto). reflexivity.
        -- rewrite lookup_insert_ne by congruence. reflexivity.
    + destruct (decide (s' = s /\ ev = kind)) as [[-> ->]|Hne]; [|reflexivity].
      now rewrite Ho, Hk.
  - destruct (decide (s' = s /\ ev = kind)) as [[-> ->]|Hne]; [|reflexivity].
    now rewrite Ho.
Qed.

Lemma invoked_socket_on (s : nat) (kind : string) (l : Listener) (w : World) :
  invoked (socket_on s kind l w) = invoked w.
Proof. unfold socket_on. now destruct (heap w !! s). Qed.

Lemma invoked_socket_off (s : nat) (kind : string) (l : Listener) (w : World) :
  invoked (socket_off s kind l w) = invoked w.
Proof.
  unfold socket_off. destruct (heap w !! s) as [o|]; [|reflexivity].
  now destruct (callbacks o !! kind).
Qed.

(** X15: calling the closure a subscription function returned undoes the
    subscription.  For a callback that was not already among the
    listeners of that kind, every listener array of every socket is as it
    was before subscribing, so an event of the kind arriving later calls
    the earlier subscribers only. *)
Theorem subscribe_then_unsubscribe (w : World) (s : nat) (kind : string)
    (cb : nat) (data : string) :
  socket w = Some s -> is_Some (heap w !! s) ->
  Callback cb ∉ listeners s kind w ->
  let u := {| unsub_socket := s; unsub_kind := kind; unsub_callback := cb |} in
  let w' := unsubscribe u (subscribe kind cb w).2 in
  (subscribe kind cb w).1 = Some u
  /\ (forall s' ev, listeners s' ev w' = listeners s' ev w)
  /\ (socket_connected s w' = true ->
      invoked (inbound s kind data w')
      = invoked w ++ map (fun c => (c, data)) (subscribers s kind w)).
Proof.
  intros Hs Hh Hn. cbv zeta. unfold subscribe. rewrite Hs; cbn [fst snd].
  split; [reflexivity|]. unfold unsubscribe;
    cbn [unsub_socket unsub_kind unsub_callback].
  assert (forall s' ev,
            listeners s' ev
              (socket_off s kind (Callback cb)
                 (socket_on s kind (Callback cb) w))
            = listeners s' ev w) as Hl.
  { intros s' ev. rewrite listeners_socket_off.
    destruct (decide (s' = s /\ ev = kind)) as [[-> ->]|Hne].
    - rewrite listeners_socket_on by exact Hh.
      rewrite decide_True by tauto. now apply remove_first_last.
    - rewrite listeners_socket_on by exact Hh.
      now rewrite decide_False. }
  split; [exact Hl|].
  intros Hc. unfold inbound. rewrite Hc, invoked_dispatch.
  unfold subscribers. rewrite Hl. f_equal.
  now rewrite invoked_socket_off, invoked_socket_on.
Qed.

Lemma subscribe_then_unsubscribe_witness :
  let w := (onTripStatusUpdate 7
              (transitions [Auth (Some "t1") (Some dana); Connect 0]
                 initial)).2 in
  let u := {| unsub_socket := 0; unsub_kind := "trip-status";
              unsub_callback := 8 |} in
  invoked (inbound 0 "trip-status" "arrived"
             (unsubscribe u (subscribe "trip-status" 8 w).2))
  = [(7, "arrived")].
Proof.
  cbv zeta.
  set (w := (onTripStatusUpdate 7
               (transitions [Auth (Some "t1") (Some dana); Connect 0]
                  initial)).2).
  assert (socket w = Some 0) as Hs by (vm_compute; reflexivity).
  assert (is_Some (heap w !! 0)) as Hh by (vm_compute; eauto).
  assert (Callback 8 ∉ listeners 0 "trip-status" w) as Hn.
  { vm_compute. intros H. apply list_elem_of_singleton in H. discriminate. }
  destruct (subscribe_then_unsubscribe w 0 "trip-status" 8 "arrived" Hs Hh Hn)
    as (_ & _ & Hi).
  rewrite Hi by (vm_compute; reflexivity). vm_compute. reflexivity.
Defined.

(** ** A new socket *)

Lemma subscribers_initializeSocket (user : option User) (kind : string)
    (w : World) :
  subscribers (fresh (dom (heap w))) kind (initializeSocket user w) = [].
Proof.
  unfold subscribers, listeners, initializeSocket; cbn [heap set_heap setSocket].
  rewrite lookup_insert_eq; cbn [callbacks].
  repeat (rewrite lookup_insert; case_decide; [reflexivity|]).
  now rewrite lookup_empty.
Qed.

Lemma heap_initializeSocket (user : option User) (w : World) :
  is_Some (heap (initializeSocket user w) !! fresh (dom (heap w))).
Proof.
  unfold initializeSocket; cbn [heap set_heap setSocket].
  rewrite lookup_insert_eq. eauto.
Qed.

(** X16: [initializeSocket] makes the provider hold a socket that did not
    exist before, not connected and without any subscriber; the existing
    sockets are untouched and nothing is sent or called.  Whatever
    connection-state transitions follow, an event arriving on the new
    socket calls no callback: subscriptions made on an earlier socket are
    not carried over. *)
Theorem initializeSocket_fresh (user : option User) (w : World)
    (ts : list Transition) (kind data : string) :
  let s := fresh (dom (heap w)) in
  let w' := initializeSocket user w in
  socket w' = Some s /\ heap w !! s = None
  /\ socket_connected s w' = false
  /\ (forall s', s' <> s -> heap w' !! s' = heap w !! s')
  /\ wire w' = wire w /\ invoked w' = invoked w
  /\ subscribers s kind (transitions ts w') = []
  /\ invoked (inbound s kind data (transitions ts w'))
     = invoked (transitions ts w').
Proof.
  cbv zeta. set (s := fresh (dom (heap w))).
  assert (heap w !! s = None) as Hf.
  { apply not_elem_of_dom. apply is_fresh. }
  assert (subscribers s kind (transitions ts (initializeSocket user w)) = [])
    as Hsub.
  { unfold subscribers. rewrite listeners_transitions
      by apply heap_initializeSocket.
    apply subscribers_initializeSocket. }
  split; [reflexivity|]. split; [exact Hf|]. split.
  { unfold socket_connected, initializeSocket; cbn [heap set_heap setSocket].
    fold s. now rewrite lookup_insert_eq. }
  split.
  { intros s' Hne. unfold initializeSocket; cbn [heap set_heap setSocket].
    fold s. now rewrite lookup_insert_ne. }
  split; [reflexivity|]. split; [reflexivity|]. split; [exact Hsub|].
  unfold inbound.
  destruct (socket_connected s (transitions ts (initializeSocket user w)));
    [|reflexivity].
  rewrite invoked_dispatch, Hsub. cbn. now rewrite app_nil_r.
Qed.

(** ** Closing the socket *)

Lemma flags_update (w : World) (s : nat) (o o' : Socket) :
  heap w !! s = Some o -> connected o' = connected o ->
  flags (set_heap (<[s := o']> (heap w)) w) = flags w.
Proof.
  intros Hs Hc. unfold flags; cbn [heap set_heap]. rewrite fmap_insert.
  apply insert_id. rewrite lookup_fmap, Hs; cbn. congruence.
Qed.

Lemma flags_socket_emit (s : nat) (ev arg : string) (w : World) :
  flags (socket_emit s ev arg w) = flags w.
Proof.
  unfold socket_emit. destruct (heap w !! s) as [o|] eqn:Hs; [|reflexivity].
  destruct (connected o) eqn:Hc; [reflexivity|].
  apply flags_update with o; [exact Hs|]. now rewrite Hc.
Qed.

Lemma flags_foldl_listeners (s : nat) (data : string) (ls : list Listener)
    (w : World) :
  flags (foldl (fun w l => run_listener s data l w) w ls) = flags w.
Proof.
  revert w. induction ls as [|l ls IH]; intros w; cbn [foldl]; [reflexivity|].
  rewrite IH. destruct l as [[u|]| | | | |cb]; cbn [run_listener];
    try reflexivity.
  now rewrite !flags_socket_emit.
Qed.

Lemma socket_connected_flags (s : nat) (w : World) :
  socket_connected s w = default false (flags w !! s).
Proof.
  unfold socket_connected, flags. rewrite lookup_fmap.
  now destruct (heap w !! s).
Qed.

Lemma socket_connected_disconnect (s : nat) (w : World) :
  socket_connected s (socket_disconnect s w) = false.
Proof.
  unfold socket_disconnect.
  destruct (socket_connected s w) eqn:Hc; [|exact Hc].
  unfold transport_disconnect, dispatch.
  rewrite socket_connected_flags, flags_foldl_listeners.
  rewrite <- socket_connected_flags.
  unfold socket_connected, set_connected in *.
  destruct (heap w !! s) as [o|]; [|discriminate].
  cbn [heap set_heap]. now rewrite lookup_insert_eq.
Qed.

(** X17: after [disconnectSocket] the provider holds no socket; if it held
    one, that socket is no longer connected and [isConnected] is false.
    From then on the trip-room functions, every emitter and every
    subscription function do nothing (a subscription returns no
    unsubscribe closure), and a second [disconnectSocket] changes
    nothing. *)
Theorem disconnectSocket_closes (w : World) (ev arg kind tripId : string)
    (cb : nat) :
  let w' := disconnectSocket w in
  socket w' = None
  /\ (forall s, socket w = Some s ->
        socket_connected s w' = false /\ isConnected w' = false)
  /\ joinTripRoom tripId w' = w' /\ leaveTripRoom tripId w' = w'
  /\ guarded_emit ev arg w' = w'
  /\ subscribe kind cb w' = (None, w')
  /\ disconnectSocket w' = w'.
Proof.
  cbv zeta.
  assert (socket (disconnectSocket w) = None) as Hn.
  { unfold disconnectSocket. destruct (socket w) eqn:Hs; [reflexivity|exact Hs]. }
  split; [exact Hn|]. split.
  { intros s Hs. unfold disconnectSocket. rewrite Hs.
    split; [|reflexivity].
    change (socket_connected s (socket_disconnect s w) = false).
    apply socket_connected_disconnect. }
  set (w' := disconnectSocket w) in *.
  unfold joinTripRoom, leaveTripRoom, guarded_emit, subscribe, disconnectSocket.
  rewrite !Hn. now repeat split.
Qed.

(** ** The events that only set the flag *)

Lemma listeners_initializeSocket_others (user : option User) (w : World) :
  let s := fresh (dom (heap w)) in
  let w' := initializeSocket user w in
  listeners s "disconnect" w' = [DisconnectHandler]
  /\ listeners s "connect_error" w' = [ConnectErrorHandler]
  /\ listeners s "reconnect" w' = [ReconnectHandler]
  /\ listeners s "reconnect_failed" w' = [ReconnectFailedHandler].
Proof.
  cbv zeta. unfold listeners, initializeSocket; cbn [heap set_heap setSocket].
  rewrite lookup_insert_eq; cbn [callbacks]. repeat split.
Qed.

Lemma wire_set_connected (s : nat) (b : bool) (w : World) :
  wire (set_connected s b w) = wire w
  /\ isConnected (set_connected s b w) = isConnected w.
Proof. unfold set_connected. now destruct (heap w !! s). Qed.

(** X18: on a socket created by [initializeSocket], whatever transitions
    happened since, the events [disconnect], [connect_error], [reconnect]
    and [reconnect_failed] send nothing; they only set [isConnected], to
    true for [reconnect] and to false for the other three.  In particular
    [reconnect] does not join any room again. *)
Theorem flag_only_events (user : option User) (w : World)
    (ts : list Transition) :
  let s := fresh (dom (heap w)) in
  let w1 := transitions ts (initializeSocket user w) in
  (wire (transition (Disconnect s) w1) = wire w1
   /\ isConnected (transition (Disconnect s) w1) = false)
  /\ (wire (transition (ConnectError s) w1) = wire w1
      /\ isConnected (transition (ConnectError s) w1) = false)
  /\ (wire (transition (Reconnect s) w1) = wire w1
      /\ isConnected (transition (Reconnect s) w1) = true)
  /\ (wire (transition (ReconnectFailed s) w1) = wire w1
      /\ isConnected (transition (ReconnectFailed s) w1) = false).
Proof.
  cbv zeta. set (s := fresh (dom (heap w))).
  set (w1 := transitions ts (initializeSocket user w)).
  destruct (listeners_initializeSocket_others user w) as (Hd & He & Hr & Hf).
  fold s in Hd, He, Hr, Hf.
  assert (forall ev, listeners s ev w1 = listeners s ev (initializeSocket user w))
    as Hl.
  { intros ev. unfold w1. apply listeners_transitions, heap_initializeSocket. }
  cbn [transition]. unfold transport_disconnect, dispatch.
  assert (listeners s "disconnect" (set_connected s false w1)
          = listeners s "disconnect" w1) as Hl'.
  { rewrite !listeners_tables. now rewrite tables_set_connected. }
  rewrite Hl', !Hl, Hd, He, Hr, Hf. cbn [foldl run_listener].
  destruct (wire_set_connected s false w1) as [Hw _].
  repeat split. exact Hw.
Qed.

(** ** An invariant of the provider *)

Lemma socket_socket_emit (s : nat) (ev arg : string) (w : World) :
  socket (socket_emit s ev arg w) = socket w.
Proof.
  unfold socket_emit. destruct (heap w !! s) as [o|]; [|reflexivity].
  now destruct (connected o).
Qed.

Lemma socket_dispatch (s : nat) (ev data : string) (w : World) :
  socket (dispatch s ev data w) = socket w.
Proof.
  unfold dispatch. generalize (listeners s ev w) as ls. intros ls. revert w.
  induction ls as [|l ls IH]; intros w; cbn [foldl]; [reflexivity|].
  rewrite IH. destruct l as [[u|]| | | | |cb]; cbn [run_listener];
    rewrite ?socket_socket_emit; reflexivity.
Qed.

Lemma socket_set_connected (s : nat) (b : bool) (w : World) :
  socket (set_connected s b w) = socket w.
Proof. unfold set_connected. now destruct (heap w !! s). Qed.

Lemma socket_flush (s : nat) (w : World) : socket (flush s w) = socket w.
Proof. unfold flush. now destruct (heap w !! s). Qed.

Lemma tables_heap (w w' : World) (s : nat) :
  tables w' = tables w -> is_Some (heap w' !! s) <-> is_Some (heap w !! s).
Proof.
  intros Ht. rewrite <- !(fmap_is_Some callbacks), <- !lookup_fmap.
  fold (tables w') (tables w). now rewrite Ht.
Qed.

Lemma tables_listeners (w w' : World) (s : nat) (ev : string) :
  tables w' = tables w -> listeners s ev w' = listeners s ev w.
Proof. intros Ht. now rewrite !listeners_tables, Ht. Qed.

Lemma intact_same_tables (w w' : World) :
  tables w' = tables w -> socket w' = socket w \/ socket w' = None ->
  intact w -> intact w'.
Proof.
  intros Ht Hs [H1 H2]. split.
  - intros s Hs'. apply (tables_heap w w' s Ht). apply H1.
    destruct Hs as [Hs|Hs]; congruence.
  - intros s Hh. apply (tables_heap w w' s Ht) in Hh.
    unfold own_listeners. rewrite !(tables_listeners w w' s _ Ht).
    now apply H2.
Qed.

Lemma intact_initializeSocket (u : User) (w : World) :
  intact w -> intact (initializeSocket (Some u) w).
Proof.
  intros [H1 H2]. set (s := fresh (dom (heap w))).
  assert (heap w !! s = None) as Hf by (apply not_elem_of_dom, is_fresh).
  split.
  - intros s' [= <-]. apply heap_initializeSocket.
  - intros s' Hh. destruct (decide (s' = s)) as [->|Hne].
    + destruct (listeners_initializeSocket_others (Some u) w)
        as (Hd & He & Hr & Hx).
      split; [exists u; apply listeners_initializeSocket_connect|].
      now repeat split.
    + assert (is_Some (heap w !! s')) as Hh'.
      { unfold initializeSocket in Hh; cbn [heap set_heap setSocket] in Hh.
        fold s in Hh. now rewrite lookup_insert_ne in Hh by congruence. }
      assert (forall ev, listeners s' ev (initializeSocket (Some u) w)
                         = listeners s' ev w) as Hl.
      { intros ev. apply (listeners_transitions [Auth (Some "t") (Some u)]).
        exact Hh'. }
      unfold own_listeners. rewrite !Hl. now apply H2.
Qed.

Lemma Kind_name_not_reserved (k : Kind) :
  Kind_name k <> "connect" /\ Kind_name k <> "disconnect"
  /\ Kind_name k <> "connect_error" /\ Kind_name k <> "reconnect"
  /\ Kind_name k <> "reconnect_failed".
Proof. destruct k; repeat split; discriminate. Qed.

Lemma heap_socket_on (s : nat) (kind : string) (l : Listener) (s' : nat)
    (w : World) :
  is_Some (heap (socket_on s kind l w) !! s') <-> is_Some (heap w !! s').
Proof.
  unfold socket_on. destruct (heap w !! s) as [o|] eqn:Ho; [|reflexivity].
  cbn [heap set_heap]. destruct (decide (s' = s)) as [->|Hne].
  - rewrite lookup_insert_eq, Ho. split; eauto.
  - now rewrite lookup_insert_ne by congruence.
Qed.

Lemma heap_socket_off (s : nat) (kind : string) (l : Listener) (s' : nat)
    (w : World) :
  is_Some (heap (socket_off s kind l w) !! s') <-> is_Some (heap w !! s').
Proof.
  unfold socket_off. destruct (heap w !! s) as [o|] eqn:Ho; [|reflexivity].
  destruct (callbacks o !! kind); [|reflexivity].
  cbn [heap set_heap]. destruct (decide (s' = s)) as [->|Hne].
  - rewrite lookup_insert_eq, Ho. split; eauto.
  - now rewrite lookup_insert_ne by congruence.
Qed.

Lemma socket_socket_on (s : nat) (kind : string) (l : Listener) (w : World) :
  socket (socket_on s kind l w) = socket w.
Proof. unfold socket_on. now destruct (heap w !! s). Qed.

Lemma socket_socket_off (s : nat) (kind : string) (l : Listener) (w : World) :
  socket (socket_off s kind l w) = socket w.
Proof.
  unfold socket_off. destruct (heap w !! s) as [o|]; [|reflexivity].
  now destruct (callbacks o !! kind).
Qed.

Lemma intact_socket_on (s : nat) (k : Kind) (cb : nat) (w : World) :
  is_Some (heap w !! s) ->
  intact w -> intact (socket_on s (Kind_name k) (Callback cb) w).
Proof.
  intros Hs [H1 H2].
  destruct (Kind_name_not_reserved k) as (K1 & K2 & K3 & K4 & K5).
  split.
  - intros s'. rewrite socket_socket_on, heap_socket_on. apply H1.
  - intros s'. rewrite heap_socket_on. intros Hh.
    unfold own_listeners. rewrite !listeners_socket_on by exact Hs.
    rewrite !decide_False by (intros [_ E]; symmetry in E; contradiction).
    now apply H2.
Qed.

Lemma intact_socket_off (s : nat) (k : Kind) (cb : nat) (w : World) :
  intact w -> intact (socket_off s (Kind_name k) (Callback cb) w).
Proof.
  intros [H1 H2].
  destruct (Kind_name_not_reserved k) as (K1 & K2 & K3 & K4 & K5).
  split.
  - intros s'. rewrite socket_socket_off, heap_socket_off. apply H1.
  - intros s'. rewrite heap_socket_off. intros Hh.
    unfold own_listeners. rewrite !listeners_socket_off.
    rewrite !decide_False by (intros [_ E]; symmetry in E; contradiction).
    now apply H2.
Qed.

Lemma intact_disconnectSocket (w : World) :
  intact w -> intact (disconnectSocket w).
Proof.
  apply intact_same_tables; [apply tables_disconnectSocket|].
  unfold disconnectSocket. destruct (socket w) eqn:Hs; [now right|now left].
Qed.

Lemma intact_act (a : Action) (w : World) : intact w -> intact (act a w).
Proof.
  intros H. destruct a as [t|s k data|ev arg|k cb|s k cb]; cbn [act].
  - destruct t as [s|s|s|s|s|token user]; cbn [transition].
    + apply (intact_same_tables w); [apply tables_transport_connect| |exact H].
      left. unfold transport_connect.
      now rewrite socket_dispatch, socket_flush, socket_set_connected.
    + apply (intact_same_tables w); [apply tables_transport_disconnect| |exact H].
      left. unfold transport_disconnect.
      now rewrite socket_dispatch, socket_set_connected.
    + apply (intact_same_tables w); [apply tables_dispatch| |exact H].
      left. apply socket_dispatch.
    + apply (intact_same_tables w); [apply tables_dispatch| |exact H].
      left. apply socket_dispatch.
    + apply (intact_same_tables w); [apply tables_dispatch| |exact H].
      left. apply socket_dispatch.
    + unfold authEffect.
      destruct token as [t|], user as [u|];
        try (now apply intact_disconnectSocket).
      destruct (bool_decide (t = ""));
        [now apply intact_disconnectSocket|now apply intact_initializeSocket].
  - unfold inbound. destruct (socket_connected s w); [|exact H].
    apply (intact_same_tables w); [apply tables_dispatch| |exact H].
    left. apply socket_dispatch.
  - unfold guarded_emit. destruct (socket w) as [s|] eqn:Hs; [|exact H].
    destruct (isConnected w); [|exact H].
    apply (intact_same_tables w); [apply tables_socket_emit| |exact H].
    left. now rewrite socket_socket_emit.
  - unfold subscribe. destruct (socket w) as [s|] eqn:Hs; [|exact H].
    cbn [snd]. apply intact_socket_on; [|exact H].
    destruct H as [H1 _]. now apply H1.
  - unfold unsubscribe; cbn [unsub_socket unsub_kind unsub_callback].
    now apply intact_socket_off.
Qed.

(** X19: in every world that calls of the provider's functions, events
    from the server and connection-state transitions lead to from the
    initial one, the socket the provider holds exists, and every socket
    ever created still has exactly the five listeners of
    [initializeSocket] on [connect], [disconnect], [connect_error],
    [reconnect] and [reconnect_failed], the [connect] one holding a user:
    subscribing and unsubscribing never add to them or remove them. *)
Theorem provider_listeners_intact (l : list Action) :
  let w := acts l initial in
  (forall s, socket w = Some s -> is_Some (heap w !! s))
  /\ (forall s, is_Some (heap w !! s) -> own_listeners s w).
Proof.
  cbv zeta. change (intact (acts l initial)).
  assert (intact initial) as H0.
  { split; [discriminate|]. intros s [o Ho]. cbn in Ho.
    rewrite lookup_empty in Ho. discriminate. }
  revert H0. generalize initial as w. unfold acts.
  induction l as [|a l IH]; intros w Hw; cbn [foldl]; [exact Hw|].
  apply IH. now apply intact_act.
Qed.

End SocketProviderMore.

(** * Properties of the auth provider *)

Section AuthProviderFacts.
Import SocketProvider AuthProvider.

Variable stringify : User -> string.
Variable parse : string -> option User.

(** X20: a successful [login] or [register] is remembered: when the
    provider is mounted again over the same storage, [checkAuthStatus]
    restores the same token and the same user, provided the token and the
    stored user are not empty strings and [JSON.parse] gives the user
    back.  With an empty token nothing is restored. *)
Theorem session_restored (fallback : string) (t : string) (u : User)
    (st : State) :
  stringify u <> "" -> parse (stringify u) = Some u ->
  let st1 := (signIn stringify fallback (Ok t u) st).2 in
  let st2 := checkAuthStatus parse (mounted (localStorage st1)) in
  (signIn stringify fallback (Ok t u) st).1
  = {| success := true; error := None |}
  /\ token st1 = Some t /\ user st1 = Some u
  /\ isLoading st2 = false
  /\ (t <> "" -> token st2 = Some t /\ user st2 = Some u)
  /\ (t = "" -> token st2 = None /\ user st2 = None).
Proof.
  intros Hne Hp. cbv zeta. cbn [signIn fst snd].
  split; [reflexivity|]. split; [reflexivity|]. split; [reflexivity|].
  unfold checkAuthStatus, mounted, setUser, setToken, setItem;
    cbn [localStorage].
  rewrite lookup_insert_ne by discriminate.
  rewrite !lookup_insert_eq.
  rewrite (bool_decide_eq_false_2 (stringify u = "")) by exact Hne.
  rewrite Hp. destruct (decide (t = "")) as [->|Ht].
  - cbn. split; [reflexivity|]. split; [congruence|]. now intros _.
  - rewrite (bool_decide_eq_false_2 (t = "")) by exact Ht. cbn.
    split; [reflexivity|]. split; [now intros _|]. congruence.
Qed.

(** X21: after [logout] no token and no user are held, the storage has
    neither ["authToken"] nor ["user"] while its other keys are as
    before, and a provider mounted again over that storage restores
    nothing. *)
Theorem logout_forgets (st : State) (k : string) :
  let st1 := logout st in
  let st2 := checkAuthStatus parse (mounted (localStorage st1)) in
  token st1 = None /\ user st1 = None
  /\ localStorage st1 !! "authToken" = None
  /\ localStorage st1 !! "user" = None
  /\ (k <> "authToken" -> k <> "user" ->
      localStorage st1 !! k = localStorage st !! k)
  /\ token st2 = None /\ user st2 = None /\ isLoading st2 = false.
Proof.
  cbv zeta. unfold logout, removeItem, setUser, setToken; cbn [localStorage token user].
  assert (delete "user" (delete "authToken" (localStorage st)) !! "authToken"
          = None) as Ha.
  { rewrite lookup_delete_ne by discriminate. apply lookup_delete_eq. }
  split; [reflexivity|]. split; [reflexivity|]. split; [exact Ha|].
  split; [apply lookup_delete_eq|]. split.
  { intros H1 H2. now rewrite !lookup_delete_ne by congruence. }
  unfold checkAuthStatus, mounted; cbn [localStorage]. rewrite Ha.
  now repeat split.
Qed.

(** X22: when the server call throws or the response is not ok, [login],
    [register] and [updateProfile] leave the state and the storage as they
    were and report failure with a message: the [error] of the response
    body when it has a non-empty one, the function's own message
    otherwise. *)
Theorem failed_call_changes_nothing (fallback : string) (r : Response)
    (st : State) :
  (r = Threw \/ exists e, r = NotOk e) ->
  (signIn stringify fallback r st).2 = st
  /\ (updateProfile stringify r st).2 = st
  /\ success (signIn stringify fallback r st).1 = false
  /\ success (updateProfile stringify r st).1 = false
  /\ (forall m, r = NotOk (Some m) -> m <> "" ->
        error (signIn stringify fallback r st).1 = Some m
        /\ error (updateProfile stringify r st).1 = Some m)
  /\ (r = Threw \/ r = NotOk None \/ r = NotOk (Some "") ->
      error (signIn stringify fallback r st).1 = Some fallback
      /\ error (updateProfile stringify r st).1
         = Some "Profile update failed").
Proof.
  intros [-> | [e ->]]; cbn [signIn updateProfile fst snd success error].
  - do 4 (split; [reflexivity|]). split; [discriminate|]. now intros _.
  - do 4 (split; [reflexivity|]). split.
    + intros m [= ->] Hm. unfold or_else.
      rewrite bool_decide_eq_false_2 by exact Hm. now split.
    + intros [H|[[= ->]|[= ->]]]; [discriminate| |]; now split.
Qed.

(** X23: when the storage holds a non-empty token and a non-empty user
    string that [JSON.parse] rejects, [checkAuthStatus] ends with the
    token set and no user; the socket provider's effect, which needs both,
    then opens no socket. *)
Theorem unreadable_user_restores_token_only (storage : gmap string string)
    (t json : string) (w : World) :
  storage !! "authToken" = Some t -> storage !! "user" = Some json ->
  t <> "" -> json <> "" -> parse json = None ->
  let st := checkAuthStatus parse (mounted storage) in
  token st = Some t /\ user st = None /\ isLoading st = false
  /\ authEffect (token st) (user st) w = disconnectSocket w.
Proof.
  intros Ht Hu Hte Hje Hp. cbv zeta.
  unfold checkAuthStatus, mounted; cbn [localStorage]. rewrite Ht, Hu.
  rewrite (bool_decide_eq_false_2 (t = "")) by exact Hte.
  rewrite (bool_decide_eq_false_2 (json = "")) by exact Hje.
  cbn [orb]. rewrite Hp. now repeat split.
Qed.

(** X24: after a successful [login] or [register] with a non-empty token
    the socket provider's effect creates a socket whose [connect] listener
    holds the user who logged in; after [logout] the effect closes it:
    the provider holds no socket and [isConnected] is false. *)
Theorem login_logout_socket (fallback : string) (t : string) (u : User)
    (st : State) (w : World) :
  t <> "" ->
  let st1 := (signIn stringify fallback (Ok t u) st).2 in
  let w1 := authEffect (token st1) (user st1) w in
  let w2 := authEffect (token (logout st1)) (user (logout st1)) w1 in
  socket w1 = Some (fresh (dom (heap w)))
  /\ listeners (fresh (dom (heap w))) "connect" w1 = [ConnectHandler (Some u)]
  /\ socket w2 = None /\ isConnected w2 = false.
Proof.
  intros Ht. cbv zeta. cbn [signIn snd token user setUser setToken logout].
  unfold authEffect at 1 2 4. rewrite (bool_decide_eq_false_2 (t = "")) by exact Ht.
  split; [reflexivity|]. split; [apply listeners_initializeSocket_connect|].
  unfold authEffect. rewrite (bool_decide_eq_false_2 (t = "")) by exact Ht.
  unfold disconnectSocket. cbn [socket initializeSocket setSocket].
  now split.
Qed.

End AuthProviderFacts.

Section AuthProviderExamples.
Import SocketProvider AuthProvider.

Lemma session_restored_witness :
  let st1 := (login store_id (Ok "tok" dana) (mounted ∅)).2 in
  let st2 := checkAuthStatus load_dana (mounted (localStorage st1)) in
  token st2 = Some "tok" /\ user st2 = Some dana.
Proof.
  cbv zeta.
  destruct (session_restored store_id load_dana "Login failed" "tok" dana
              (mounted ∅)) as (_ & _ & _ & _ & H & _);
    [discriminate|reflexivity|].
  apply H. discriminate.
Defined.

Lemma failed_call_changes_nothing_witness :
  (login store_id (NotOk (Some "Invalid credentials")) (mounted ∅)).2
  = mounted ∅
  /\ error (login store_id (NotOk (Some "Invalid credentials")) (mounted ∅)).1
     = Some "Invalid credentials".
Proof.
  destruct (failed_call_changes_nothing store_id "Login failed"
              (NotOk (Some "Invalid credentials")) (mounted ∅))
    as (H1 & _ & _ & _ & H2 & _); [right; eauto|].
  split; [exact H1|]. apply (H2 "Invalid credentials"); [reflexivity|discriminate].
Defined.

Lemma unreadable_user_restores_token_only_witness :
  let st := checkAuthStatus load_dana
              (mounted (<["user" := "{"]> (<["authToken" := "tok"]> ∅))) in
  token st = Some "tok" /\ user st = None.
Proof.
  cbv zeta.
  destruct (unreadable_user_restores_token_only load_dana
              (<["user" := "{"]> (<["authToken" := "tok"]> ∅)) "tok" "{"
              SocketProvider.initial)
    as (H1 & H2 & _); try reflexivity; try discriminate.
  split; [exact H1|exact H2].
Defined.

Lemma login_logout_socket_witness :
  let st1 := (login store_id (Ok "tok" dana) (mounted ∅)).2 in
  let w1 := authEffect (token st1) (user st1) SocketProvider.initial in
  socket w1 = Some 0
  /\ socket (authEffect (token (logout st1)) (user (logout st1)) w1) = None.
Proof.
  cbv zeta.
  destruct (login_logout_socket store_id "Login failed" "tok" dana (mounted ∅)
              SocketProvider.initial) as (H1 & _ & H2 & _); [discriminate|].
  split; [exact H1|exact H2].
Defined.

End AuthProviderExamples.
